(** * cpputils: detached tasks, shared task handles, the fixed-size array
      and the scoped pointer

    A shallow embedding of the headers of the repository:

    - the two [TaskManager] headers (the instance-based one with [global()]
      and the static singleton one with [instance()]), whose [spawn],
      [worker], [set_value], [spawn_with_result] and [wait_all] have the same
      bodies up to the way the manager object is reached;
    - the [Task<R>] header built on [std::packaged_task] and
      [std::shared_future];
    - [Array<T, N>];
    - [scoped_ptr<T>], over a free store of live objects.

    Threads are modelled by an interleaving semantics: a state, a label for
    every atomic action of a thread, and a step function; an execution is a
    list of labels.  The standard-library objects the code uses
    ([std::promise], [std::future], [std::shared_future],
    [std::packaged_task]) are modelled by their effect on the shared state
    they refer to, as the C++ standard describes it. *)

From stdpp Require Import base list strings numbers gmap.

Local Open Scope Z_scope.

(** ** Exceptions, outcomes of calls *)

(** [std::future_errc]. *)
Inductive future_errc :=
| broken_promise
| future_already_retrieved
| promise_already_satisfied
| no_state.

(** The exception objects that occur: whatever a callable throws is a
    [runtime_error] carrying its [what()] text; the library throws the
    others. *)
Inductive exception :=
| runtime_error (what : string)
| future_error (code : future_errc)
| system_error
| out_of_range (what : string).

(** [what()], where the code fixes its text: the message an exception was
    constructed with.  The text of an exception the library throws is the
    implementation's and is not modelled. *)
Definition what (e : exception) : option string :=
  match e with
  | runtime_error w => Some w
  | out_of_range w => Some w
  | future_error _ => None
  | system_error => None
  end.

(** A call that comes back either returns or throws. *)
Inductive outcome (X : Type) :=
| Returns (x : X)
| Raises (e : exception).
Arguments Returns {X} x.
Arguments Raises {X} e.

(** A callable handed to [spawn] may also never come back. *)
Inductive behaviour (X : Type) :=
| Halts (o : outcome X)
| Diverges.
Arguments Halts {X} o.
Arguments Diverges {X}.

(** What is handed to [spawn] or to the constructor of [Task]: a callable
    whose result type is [R], or one whose result type is [void].  [A] is
    what the argument pack [args...] carries.  Both headers hand the pack on
    as [std::forward(args)...], which compiles for the empty pack only:
    [TaskManager.spawn_pack] and [Task.construct] take the pack as a list
    and say so; the steps of a task that exists are stated for every
    [A]. *)
Inductive callable (A R : Type) :=
| Fn (f : A -> behaviour R)
| FnVoid (f : A -> behaviour unit).
Arguments Fn {A R} f.
Arguments FnVoid {A R} f.


(** The callable, applied to [a], comes back: it returns or it throws. *)
Definition comes_back {A R : Type} (c : callable A R) (a : A) : Prop :=
  match c with
  | Fn f => f a <> Diverges
  | FnVoid f => f a <> Diverges
  end.

(** ** The shared state of a promise / future pair *)

Module Future.
Section Future.
Context {R : Type}.

(** The result slot.  [ResolvedVoid] is the ready state of a
    [promise<void>]: ready, no value, no exception. *)
Inductive slot :=
| Pending
| Resolved (v : R)
| ResolvedVoid
| Failed (e : exception).

Definition terminal (s : slot) : bool :=
  match s with Pending => false | _ => true end.

(** Shared states live on a heap and are named by their index. *)
Local Notation loc := nat (only parsing).
Local Notation heap := (list slot) (only parsing).

(** [promise::set_value(v)]: stores the value and makes the state ready;
    throws [promise_already_satisfied] when the state is ready already. *)
Definition promise_set_value (v : R) (s : slot) : outcome unit * slot :=
  match s with
  | Pending => (Returns tt, Resolved v)
  | _ => (Raises (future_error promise_already_satisfied), s)
  end.

(** [promise<void>::set_value()]. *)
Definition promise_set_value_void (s : slot) : outcome unit * slot :=
  match s with
  | Pending => (Returns tt, ResolvedVoid)
  | _ => (Raises (future_error promise_already_satisfied), s)
  end.

(** [promise::set_exception(p)]. *)
Definition promise_set_exception (e : exception) (s : slot)
  : outcome unit * slot :=
  match s with
  | Pending => (Returns tt, Failed e)
  | _ => (Raises (future_error promise_already_satisfied), s)
  end.

(** [~promise()] (and [~packaged_task()]): abandons the shared state; a
    state that is not ready receives [future_error(broken_promise)] and
    becomes ready. *)
Definition promise_abandon (s : slot) : slot :=
  match s with
  | Pending => Failed (future_error broken_promise)
  | _ => s
  end.

(** A [std::future]: it refers to a shared state, or to none once [get]
    has been called (or when default-constructed). *)
Record future := { fstate : option loc }.

Definition future_of (p : loc) : future := {| fstate := Some p |}.
Definition no_future : future := {| fstate := None |}.

Definition valid (f : future) : bool :=
  match fstate f with Some _ => true | None => false end.

(** What a call of [get] or [wait] does for its caller. *)
Inductive get_result :=
| Blocked                      (* the state is not ready: the caller is suspended *)
| GotValue (v : R)             (* returns the stored value *)
| GotVoid                      (* returns, nothing to return *)
| Rethrown (e : exception)     (* rethrows the stored exception *)
| NoState.                     (* valid() was false: undefined by the standard,
                                  future_error(no_state) in libstdc++ and libc++ *)

Definition read (s : slot) : get_result :=
  match s with
  | Pending => Blocked
  | Resolved v => GotValue v
  | ResolvedVoid => GotVoid
  | Failed e => Rethrown e
  end.

(** [std::future::get()]: waits for the state to be ready, moves the
    outcome out and releases the shared state, so that [valid()] is false
    afterwards. *)
Definition get (h : heap) (f : future) : get_result * future :=
  match fstate f with
  | None => (NoState, f)
  | Some p =>
      match h !! p with
      | None => (NoState, f)
      | Some Pending => (Blocked, f)
      | Some s => (read s, no_future)
      end
  end.

(** [std::future::wait()]: waits for the state to be ready; returns
    nothing and throws nothing; the future stays valid. *)
Inductive wait_result := WaitBlocked | WaitReturned | WaitNoState.

Definition wait (h : heap) (f : future) : wait_result :=
  match fstate f with
  | None => WaitNoState
  | Some p =>
      match h !! p with
      | None => WaitNoState
      | Some Pending => WaitBlocked
      | Some _ => WaitReturned
      end
  end.

(** [std::shared_future]: copyable, [get] is const and leaves the shared
    state in place. *)
Record shared_future := { sstate : option loc }.

(** [std::future::share()]. *)
Definition share (f : future) : shared_future := {| sstate := fstate f |}.

Definition shared_valid (f : shared_future) : bool :=
  match sstate f with Some _ => true | None => false end.

Definition shared_get (h : heap) (f : shared_future)
  : get_result * shared_future :=
  match sstate f with
  | None => (NoState, f)
  | Some p =>
      match h !! p with
      | None => (NoState, f)
      | Some s => (read s, f)
      end
  end.

Definition shared_wait (h : heap) (f : shared_future) : wait_result :=
  match sstate f with
  | None => WaitNoState
  | Some p =>
      match h !! p with
      | None => WaitNoState
      | Some Pending => WaitBlocked
      | Some _ => WaitReturned
      end
  end.

(** *** Timed waits

    Time is counted in ticks of one clock.  [ready_at] is the tick at which
    the shared state a future refers to is made ready, when it ever is. *)

(** [std::future_status]. *)
Inductive future_status := ready | timeout | deferred.

(** An argument of [<chrono>] type: a [std::chrono::duration] or a
    [std::chrono::time_point], each with its tick count. *)
Inductive chrono :=
| duration (ticks : Z)
| time_point (ticks : Z).

(** A timed wait entered at [now] with the absolute limit [limit]: the
    status it returns and the tick at which it returns. *)
Definition timed_wait (ready_at : option Z) (now limit : Z)
  : future_status * Z :=
  match ready_at with
  | Some t =>
      if t <=? Z.max now limit then (ready, Z.max now t)
      else (timeout, Z.max now limit)
  | None => (timeout, Z.max now limit)
  end.

(** [shared_future::wait_for(const duration<Rep, Period>&)].  The parameter
    is a duration: for an argument of another type template argument
    deduction fails and the call is ill-formed, which [None] stands for. *)
Definition shared_wait_for (ready_at : option Z) (now : Z) (rel : chrono)
  : option (future_status * Z) :=
  match rel with
  | duration d => Some (timed_wait ready_at now (now + d))
  | time_point _ => None
  end.

(** [shared_future::wait_until(const time_point<Clock, Duration>&)]. *)
Definition shared_wait_until (ready_at : option Z) (now : Z) (abs : chrono)
  : option (future_status * Z) :=
  match abs with
  | time_point t => Some (timed_wait ready_at now t)
  | duration _ => None
  end.

End Future.
Arguments slot : clear implicits.
Arguments get_result : clear implicits.
Notation loc := nat (only parsing).
Notation heap R := (list (slot R)) (only parsing).
End Future.

(** ** TaskManager *)

Module TaskManager.
Import Future.
Section TaskManager.
(** The result type of the callable selects the overload of [set_value]. *)
Context {A R : Type}.

(** [std::atomic<int>]: arithmetic wraps around in two's complement. *)
Definition wrap_int (z : Z) : Z := (z + 2 ^ 31) mod 2 ^ 32 - 2 ^ 31.

(** The generic overload
    [set_value(std::promise<R>& promise, F&& f, Args&&... args)]:
    [promise.set_value(f(args...))]. *)
Definition set_value (f : A -> behaviour R) (a : A) (s : slot R)
  : option (outcome unit * slot R) :=
  match f a with
  | Diverges => None
  | Halts (Raises e) => Some (Raises e, s)
  | Halts (Returns v) => Some (promise_set_value v s)
  end.

(** The overload for [std::promise<void>&]: [f(args...)], and the promise is
    left alone. *)
Definition set_value_void (f : A -> behaviour unit) (a : A) (s : slot R)
  : option (outcome unit * slot R) :=
  match f a with
  | Diverges => None
  | Halts (Raises e) => Some (Raises e, s)
  | Halts (Returns _) => Some (Returns tt, s)
  end.

(** The [try { set_value(...) } catch (...) { try { set_exception } catch
    (...) {} }] block of [worker], as its effect on the shared state of the
    worker's promise. *)
Definition worker_try (c : callable A R) (a : A) (s : slot R) : option (slot R) :=
  match
    match c with
    | Fn f => set_value f a s
    | FnVoid f => set_value_void f a s
    end
  with
  | None => None
  | Some (Returns _, s') => Some s'
  | Some (Raises e, s') =>
      match promise_set_exception e s' with
      | (Returns _, s'') => Some s''
      | (Raises _, s'') => Some s''     (* Ignore any other exceptions *)
      end
  end.

(** Where one call of [spawn], and the execution unit it starts, stands. *)
Inductive pc :=
| Registered      (* spawn: task_count++ done, std::thread not yet constructed *)
| LaunchFailed    (* spawn: the constructor of std::thread threw *)
| Running         (* worker entered, try block not yet run *)
| Recorded        (* worker: try/catch block left *)
| Locked          (* worker: holds mut *)
| Decremented     (* worker: task_count-- done *)
| Notified        (* worker: cond.notify_all() done *)
| Unlocked        (* worker: lock destroyed, parameter promise still alive *)
| Exited.         (* worker returned, its promise destroyed *)

Record task := {
  t_promise : loc;
  t_func : callable A R;
  t_args : A;
  t_pc : pc }.

Definition at_pc (q : pc) (t : task) : task :=
  {| t_promise := t_promise t; t_func := t_func t; t_args := t_args t;
     t_pc := q |}.

(** Where a caller of [wait_all] stands. *)
Inductive wait_pc :=
| Acquiring       (* about to lock mut: on entry, or woken inside cond.wait *)
| Holding         (* holds mut, about to test task_count == 0 *)
| Sleeping        (* inside cond.wait, mut released *)
| Done (o : outcome unit).  (* wait_all has come back to its caller *)

Inductive owner :=
| ByWorker (i : nat)
| ByWaiter (j : nat).

Record state := {
  task_count : Z;
  mut : option owner;
  shared : heap R;
  tasks : list task;
  waiters : list wait_pc }.

Definition init : state :=
  {| task_count := 0; mut := None; shared := []; tasks := []; waiters := [] |}.

Definition set_count (z : Z) (st : state) : state :=
  {| task_count := z; mut := mut st; shared := shared st; tasks := tasks st;
     waiters := waiters st |}.
Definition set_mut (m : option owner) (st : state) : state :=
  {| task_count := task_count st; mut := m; shared := shared st;
     tasks := tasks st; waiters := waiters st |}.
Definition set_shared (h : heap R) (st : state) : state :=
  {| task_count := task_count st; mut := mut st; shared := h;
     tasks := tasks st; waiters := waiters st |}.
Definition set_tasks (ts : list task) (st : state) : state :=
  {| task_count := task_count st; mut := mut st; shared := shared st;
     tasks := ts; waiters := waiters st |}.
Definition set_waiters (ws : list wait_pc) (st : state) : state :=
  {| task_count := task_count st; mut := mut st; shared := shared st;
     tasks := tasks st; waiters := ws |}.

#[global] Instance pc_eq_dec : EqDecision pc.
Proof. solve_decision. Defined.

(** Task [i], provided it stands at [q]. *)
Definition task_at (st : state) (i : nat) (q : pc) : option task :=
  match tasks st !! i with
  | Some t => if decide (t_pc t = q) then Some t else None
  | None => None
  end.

Definition move (i : nat) (t : task) (q : pc) (st : state) : state :=
  set_tasks (<[i := at_pc q t]> (tasks st)) st.

(** Applies [g] to the shared state at [p]. *)
Definition update (p : loc) (g : slot R -> slot R) (h : heap R) : heap R :=
  match h !! p with
  | Some s => <[p := g s]> h
  | None => h
  end.

(** [cond.notify_all()]: every thread blocked in [cond.wait] is woken. *)
Definition wake (w : wait_pc) : wait_pc :=
  match w with Sleeping => Acquiring | _ => w end.

(** The atomic actions. *)
Inductive label :=
| SpawnCall (c : callable A R) (a : A)
    (* spawn: promise; promise.get_future(); task_count++ *)
| Launch (i : nat) (ok : bool)
    (* spawn: std::thread(worker, ...).detach(), or std::thread throws *)
| Run (i : nat)            (* worker: the try/catch block *)
| Lock (i : nat)           (* worker: std::unique_lock lock{mut} *)
| Decr (i : nat)           (* worker: task_count-- *)
| Notify (i : nat)         (* worker: cond.notify_all() *)
| Unlock (i : nat)         (* worker: lock goes out of scope *)
| Exit (i : nat)           (* worker: the parameter promise is destroyed *)
| SpawnWithResult (v : R)  (* spawn_with_result(v), start to end *)
| WaitAll                  (* a thread enters wait_all (or ~TaskManager) *)
| WLock (j : nat)          (* wait_all: locks mut (first time or after a wakeup) *)
| WTest (j : nat)          (* wait_all: tests the predicate; returns or sleeps *)
| Wake (j : nat).          (* wait_all: spurious wakeup inside cond.wait *)

(** [spawn], up to and including [task_count++]. *)
Definition spawn_call (c : callable A R) (a : A) (st : state) : state :=
  let p := length (shared st) in
  {| task_count := wrap_int (task_count st + 1);
     mut := mut st;
     shared := shared st ++ [Pending];
     tasks := tasks st ++
       [{| t_promise := p; t_func := c; t_args := a; t_pc := Registered |}];
     waiters := waiters st |}.

(** What the caller of [spawn] gets once the thread has been constructed,
    or has failed to be. *)
Definition spawn_result (t : task) (ok : bool) : outcome future :=
  if ok then Returns (future_of (t_promise t)) else Raises system_error.

(** [spawn_with_result(result)]:
    [promise.set_value(result); return promise.get_future();]. *)
Definition spawn_with_result (v : R) (st : state) : state * future :=
  let p := length (shared st) in
  let s := snd (promise_set_value v Pending) in
  (set_shared (shared st ++ [promise_abandon s]) st, future_of p).

Definition step (st : state) (l : label) : option state :=
  match l with
  | SpawnCall c a => Some (spawn_call c a st)
  | Launch i ok =>
      match task_at st i Registered with
      | Some t =>
          if ok then Some (move i t Running st)
          else Some (move i t LaunchFailed
                       (set_shared
                          (update (t_promise t) promise_abandon (shared st)) st))
      | None => None
      end
  | Run i =>
      match task_at st i Running with
      | Some t =>
          match shared st !! t_promise t with
          | Some s =>
              match worker_try (t_func t) (t_args t) s with
              | Some s' =>
                  Some (move i t Recorded
                          (set_shared (<[t_promise t := s']> (shared st)) st))
              | None => None
              end
          | None => None
          end
      | None => None
      end
  | Lock i =>
      match task_at st i Recorded, mut st with
      | Some t, None => Some (move i t Locked (set_mut (Some (ByWorker i)) st))
      | _, _ => None
      end
  | Decr i =>
      match task_at st i Locked with
      | Some t =>
          Some (move i t Decremented (set_count (wrap_int (task_count st - 1)) st))
      | None => None
      end
  | Notify i =>
      match task_at st i Decremented with
      | Some t => Some (move i t Notified (set_waiters (wake <$> waiters st) st))
      | None => None
      end
  | Unlock i =>
      match task_at st i Notified with
      | Some t => Some (move i t Unlocked (set_mut None st))
      | None => None
      end
  | Exit i =>
      match task_at st i Unlocked with
      | Some t =>
          Some (move i t Exited
                  (set_shared
                     (update (t_promise t) promise_abandon (shared st)) st))
      | None => None
      end
  | SpawnWithResult v => Some (fst (spawn_with_result v st))
  | WaitAll => Some (set_waiters (waiters st ++ [Acquiring]) st)
  | WLock j =>
      match waiters st !! j, mut st with
      | Some Acquiring, None =>
          Some (set_waiters (<[j := Holding]> (waiters st))
                  (set_mut (Some (ByWaiter j)) st))
      | _, _ => None
      end
  | WTest j =>
      match waiters st !! j with
      | Some Holding =>
          if task_count st =? 0
          then Some (set_waiters (<[j := Done (Returns tt)]> (waiters st))
                       (set_mut None st))
          else Some (set_waiters (<[j := Sleeping]> (waiters st))
                       (set_mut None st))
      | _ => None
      end
  | Wake j =>
      match waiters st !! j with
      | Some Sleeping => Some (set_waiters (<[j := Acquiring]> (waiters st)) st)
      | _ => None
      end
  end.

(** [spawn(func, args...)] run by its caller without another thread in
    between: the new task is the last one. *)
Definition spawn (c : callable A R) (a : A) (ok : bool) (st : state)
  : option (state * outcome future) :=
  let st1 := spawn_call c a st in
  let i := length (tasks st) in
  match tasks st1 !! i, step st1 (Launch i ok) with
  | Some t, Some st2 => Some (st2, spawn_result t ok)
  | _, _ => None
  end.

(** An execution: the labels are taken in order; [None] when one of them is
    not enabled. *)
Fixpoint exec (st : state) (tr : list label) : option state :=
  match tr with
  | [] => Some st
  | l :: tr' =>
      match step st l with
      | Some st' => exec st' tr'
      | None => None
      end
  end.

Definition reachable (st : state) : Prop := exists tr, exec init tr = Some st.

(** *** Vocabulary of the statements below *)

(** The worker has executed [task_count--]. *)
Definition decremented (q : pc) : bool :=
  match q with
  | Decremented | Notified | Unlocked | Exited => true
  | _ => false
  end.

(** The worker has left its try/catch block. *)
Definition recorded (q : pc) : bool :=
  match q with
  | Recorded | Locked | Decremented | Notified | Unlocked | Exited => true
  | _ => false
  end.

(** The worker holds [mut]. *)
Definition in_critical_section (q : pc) : bool :=
  match q with
  | Locked | Decremented | Notified => true
  | _ => false
  end.

(** The shared state of a task's promise, read off the place the task
    stands at. *)
Definition expected_slot (t : task) : option (slot R) :=
  match t_pc t with
  | Registered | Running => Some Pending
  | LaunchFailed => Some (promise_abandon Pending)
  | Exited => promise_abandon <$> worker_try (t_func t) (t_args t) Pending
  | _ => worker_try (t_func t) (t_args t) Pending
  end.

(** The number of tasks that have not executed [task_count--]. *)
Fixpoint outstanding (ts : list task) : nat :=
  match ts with
  | [] => 0
  | t :: ts' => ((if decremented (t_pc t) then 0 else 1) + outstanding ts')%nat
  end.

(** The calls of [spawn] that have executed [task_count++] in an
    execution. *)
Fixpoint registered (tr : list label) : nat :=
  match tr with
  | [] => 0
  | SpawnCall _ _ :: tr' => S (registered tr')
  | _ :: tr' => registered tr'
  end.

(** The number of times the worker of task [i] has executed
    [task_count--] in an execution. *)
Fixpoint decrements_of (i : nat) (tr : list label) : nat :=
  match tr with
  | [] => 0
  | Decr k :: tr' =>
      ((if decide (k = i) then 1 else 0) + decrements_of i tr')%nat
  | _ :: tr' => decrements_of i tr'
  end.

(** The workers that have executed [task_count--] in an execution. *)
Fixpoint finished (tr : list label) : nat :=
  match tr with
  | [] => 0
  | Decr _ :: tr' => S (finished tr')
  | _ :: tr' => finished tr'
  end.

(** The thread of the task has been started. *)
Definition launched (q : pc) : bool :=
  match q with
  | Registered | LaunchFailed => false
  | _ => true
  end.

(** The number of tasks [spawn] has committed to launching: the calls of
    [spawn] whose thread has been started, or is about to be. *)
Fixpoint committed (ts : list task) : nat :=
  match ts with
  | [] => 0
  | t :: ts' =>
      ((if decide (t_pc t = LaunchFailed) then 0 else 1) + committed ts')%nat
  end.

(** The number of calls of [spawn] whose thread could not be started. *)
Fixpoint launch_failures (ts : list task) : nat :=
  match ts with
  | [] => 0
  | t :: ts' =>
      ((if decide (t_pc t = LaunchFailed) then 1 else 0)
       + launch_failures ts')%nat
  end.

(** The number of tasks whose worker has executed [task_count--]. *)
Fixpoint completed (ts : list task) : nat :=
  match ts with
  | [] => 0
  | t :: ts' => ((if decremented (t_pc t) then 1 else 0) + completed ts')%nat
  end.

(** [n] calls of [spawn] in a row, each of which starts its thread; the
    first new task is task [k]. *)
Fixpoint spawns (c : callable A R) (a : A) (k n : nat) : list label :=
  match n with
  | O => []
  | S n' => SpawnCall c a :: Launch k true :: spawns c a (S k) n'
  end.

(** The steps of the worker of task [i], start to end. *)
Definition worker (i : nat) : list label :=
  [Run i; Lock i; Decr i; Notify i; Unlock i; Exit i].

(** [wait_all()] by waiter [j] when the predicate holds at the first
    test. *)
Definition wait_all (j : nat) : list label := [WaitAll; WLock j; WTest j].

(** The workers of tasks [k], [k + 1], ..., [k + n - 1], each run start to
    end, one after the other. *)
Fixpoint workers (k n : nat) : list label :=
  match n with
  | O => []
  | S n' => worker k ++ workers (S k) n'
  end.

(** Some worker has executed [task_count--] and not yet
    [cond.notify_all()]. *)
Definition notification_pending (st : state) : Prop :=
  exists k u, tasks st !! k = Some u /\ t_pc u = Decremented.

(** What holds of every state an execution reaches (shown below). *)
Record invariant (st : state) : Prop := {
  inv_bound : forall i t,
    tasks st !! i = Some t -> (t_promise t < length (shared st))%nat;
  inv_inj : forall i j ti tj,
    tasks st !! i = Some ti -> tasks st !! j = Some tj ->
    t_promise ti = t_promise tj -> i = j;
  inv_slot : forall i t,
    tasks st !! i = Some t -> shared st !! t_promise t = expected_slot t;
  inv_count :
    task_count st = wrap_int (Z.of_nat (outstanding (tasks st)));
  inv_owner :
    match mut st with
    | None => True
    | Some (ByWorker i) =>
        exists t, tasks st !! i = Some t /\ in_critical_section (t_pc t) = true
    | Some (ByWaiter j) => waiters st !! j = Some Holding
    end;
  inv_worker : forall i t,
    tasks st !! i = Some t -> in_critical_section (t_pc t) = true ->
    mut st = Some (ByWorker i);
  inv_waiter : forall j,
    waiters st !! j = Some Holding -> mut st = Some (ByWaiter j);
  inv_done : forall j o, waiters st !! j = Some (Done o) -> o = Returns tt }.

End TaskManager.
Arguments task : clear implicits.
Arguments state : clear implicits.
Arguments label : clear implicits.

(** A call [spawn(func, args...)] as its caller writes it, with the
    argument pack [args].  [spawn] hands the pack to [std::thread] as
    [std::forward(args)...], and [worker] hands it to [set_value] the same
    way: [std::forward] is called without its template argument, which
    cannot be deduced from a call, so the expansion is well-formed for the
    empty pack only.  A call with one argument or more does not compile,
    which [None] stands for; a call with none is [spawn] above. *)
Definition spawn_pack {V R : Type} (c : callable (list V) R) (args : list V)
    (ok : bool) (st : state (list V) R)
  : option (state (list V) R * outcome Future.future) :=
  match args with
  | [] => spawn c [] ok st
  | _ :: _ => None
  end.

End TaskManager.

(** ** Task<R> *)

Module Task.
Import Future.
Section Task.
(** [V] is the type of the values an argument pack carries, [R] the type of
    what a shared state holds. *)
Context {V R : Type}.

(** The kinds of type the [R] of a [Task<R>] can be: an object type, an
    lvalue reference type, or [void]. *)
Inductive result_type :=
| object_type
| reference_type
| void_type.

(** [std::result_of<F(Args...)>::type], the [R] of the [Task<R>] that [run]
    returns: [void] for a callable that returns [void], and otherwise the
    result type of the callable, a reference type or an object type. *)
Definition result_of (reference : bool) (c : callable (list V) R)
  : result_type :=
  match c with
  | FnVoid _ => void_type
  | Fn _ => if reference then reference_type else object_type
  end.

(** [Task<R>] has one member, [std::shared_future<R> future]. *)
Record Task := { future : shared_future }.

(** Where the execution unit of a [Task] stands. *)
Inductive pc :=
| Started         (* the detached thread exists, the packaged_task not yet called *)
| Finished.       (* the packaged_task has been called and has returned *)

Record unit_of_execution := {
  u_state : loc;
  u_func : callable (list V) R;
  u_args : list V;
  u_pc : pc }.

Record state := {
  shared : heap R;
  units : list unit_of_execution }.

Definition init : state := {| shared := []; units := [] |}.

(** [std::packaged_task<R(Args...)>::operator()]: calls the stored callable
    and stores what it returns, or what it throws, in the shared state. *)
Definition packaged_task_call (c : callable (list V) R) (a : list V)
    (s : slot R) : option (slot R) :=
  match c with
  | Fn f =>
      match f a with
      | Diverges => None
      | Halts (Returns v) => Some (snd (promise_set_value v s))
      | Halts (Raises e) => Some (snd (promise_set_exception e s))
      end
  | FnVoid f =>
      match f a with
      | Diverges => None
      | Halts (Returns _) => Some (snd (promise_set_value_void s))
      | Halts (Raises e) => Some (snd (promise_set_exception e s))
      end
  end.

(** The constructor [Task(F&& func, Args&&... args)]:
    [package{func}; future = package.get_future().share();
     std::thread(std::move(package), std::forward(args)...).detach();].
    [std::forward] is called without its template argument, which cannot be
    deduced from a call, so the constructor is well-formed for the empty
    pack only: with one argument or more it does not compile, which [None]
    stands for.  When [std::thread] cannot be started the constructor
    throws, and the [packaged_task] is destroyed with its state not
    ready. *)
Definition construct (c : callable (list V) R) (args : list V) (ok : bool)
    (st : state) : option (state * outcome Task) :=
  match args with
  | _ :: _ => None
  | [] =>
      let p := length (shared st) in
      if ok then
        Some ({| shared := shared st ++ [Pending];
                 units := units st ++
                   [{| u_state := p; u_func := c; u_args := [];
                       u_pc := Started |}] |},
              Returns {| future := share (future_of p) |})
      else
        Some ({| shared := shared st ++ [promise_abandon Pending];
                 units := units st |},
              Raises system_error)
  end.

(** The free function [run(f, args...)] returns
    [{std::forward<F>(f), std::forward(args)...}]: the constructor, behind
    the same expansion of the pack. *)
Definition run (c : callable (list V) R) (args : list V) (ok : bool)
    (st : state) : option (state * outcome Task) :=
  match args with
  | _ :: _ => None
  | [] => construct c [] ok st
  end.

Inductive label :=
| Construct (c : callable (list V) R) (args : list V) (ok : bool)
| Execute (i : nat).

Definition step (st : state) (l : label) : option state :=
  match l with
  | Construct c args ok => fst <$> construct c args ok st
  | Execute i =>
      match units st !! i with
      | Some u =>
          match u_pc u, shared st !! u_state u with
          | Started, Some s =>
              match packaged_task_call (u_func u) (u_args u) s with
              | Some s' =>
                  Some {| shared := <[u_state u := s']> (shared st);
                          units := <[i := {| u_state := u_state u;
                                             u_func := u_func u;
                                             u_args := u_args u;
                                             u_pc := Finished |}]> (units st) |}
              | None => None
              end
          | _, _ => None
          end
      | None => None
      end
  end.

Fixpoint exec (st : state) (tr : list label) : option state :=
  match tr with
  | [] => Some st
  | l :: tr' =>
      match step st l with
      | Some st' => exec st' tr'
      | None => None
      end
  end.

(** [bool valid() const { return future.valid(); }] *)
Definition valid (t : Task) : bool := shared_valid (future t).

(** [const typename std::add_lvalue_reference<R>::type get() const
     { return future.get(); }]
    For an object type [R] the return type is [R&] (the [const] is applied
    to a reference type and has no effect), while
    [std::shared_future<R>::get()] returns [const R&], which does not bind
    to it: the member is ill-formed for every object type [R], and a call
    of it does not compile, which [None] stands for.  For a reference type
    both are [R], and for [void] both are [void]. *)
Definition get (ty : result_type) (h : heap R) (t : Task)
  : option (get_result R * Task) :=
  match ty with
  | object_type => None
  | reference_type | void_type =>
      let '(r, f) := shared_get h (future t) in Some (r, {| future := f |})
  end.

(** [void wait() const { future.wait(); }] *)
Definition wait (h : heap R) (t : Task) : wait_result :=
  shared_wait h (future t).

(** [wait_for(const duration<Rep, Period>& timeout_duration) const
     { return future.wait_for(timeout_duration); }] *)
Definition wait_for (ready_at : option Z) (now : Z) (timeout_duration : Z)
  : option (future_status * Z) :=
  shared_wait_for ready_at now (duration timeout_duration).

(** [wait_until(const time_point<Clock, Duration>& timeout_time) const
     { return future.wait_for(timeout_time); }] *)
Definition wait_until (ready_at : option Z) (now : Z) (timeout_time : Z)
  : option (future_status * Z) :=
  shared_wait_for ready_at now (time_point timeout_time).

(** *** Vocabulary of the statements below *)

(** The shared state of a unit's [packaged_task], read off the place the
    unit stands at. *)
Definition expected_slot (u : unit_of_execution) : option (slot R) :=
  match u_pc u with
  | Started => Some Pending
  | Finished => packaged_task_call (u_func u) (u_args u) Pending
  end.

(** What holds of every state an execution reaches (shown below). *)
Record invariant (st : state) : Prop := {
  inv_bound : forall i u,
    units st !! i = Some u -> (u_state u < length (shared st))%nat;
  inv_inj : forall i j ui uj,
    units st !! i = Some ui -> units st !! j = Some uj ->
    u_state ui = u_state uj -> i = j;
  inv_slot : forall i u,
    units st !! i = Some u -> shared st !! u_state u = expected_slot u }.

End Task.
Arguments state : clear implicits.
Arguments label : clear implicits.
Arguments unit_of_execution : clear implicits.
End Task.

(** ** Array<T, N> *)

Module Array.
Section Array.
Context {T : Type} {N : nat}.

(** [T elems[N]]. *)
Record Array := {
  elems : list T;
  elems_size : length elems = N }.

(** What a member function gives its caller: a result, an exception, or
    nothing defined (an access outside [elems]). *)
Inductive result (X : Type) :=
| Ok (x : X)
| Throw (e : exception)
| Undefined.
Arguments Ok {X} x.
Arguments Throw {X} e.
Arguments Undefined {X}.

(** A [reference]: the element of [elems] it designates. *)
Inductive reference := Elem (i : nat).

Definition load (a : Array) (r : reference) : option T :=
  match r with Elem i => elems a !! i end.

(** The built-in subscript [elems[i]].  ([std::size_t] indices are
    natural numbers; no arithmetic is done on them.) *)
Definition subscript (i : nat) : result reference :=
  if (i <? N)%nat then Ok (Elem i) else Undefined.

(** [static void boundscheck(size_type i)] *)
Definition boundscheck (i : nat) : result unit :=
  if (N <=? i)%nat
  then Throw (out_of_range "Array<>: index out of range")
  else Ok tt.

(** [reference at(size_type i) { boundscheck(i); return elems[i]; }]
    ([at] is reserved in Rocq.) *)
Definition at_ (i : nat) (a : Array) : result reference * Array :=
  match boundscheck i with
  | Ok _ => (subscript i, a)
  | Throw e => (Throw e, a)
  | Undefined => (Undefined, a)
  end.

(** [reference operator[](std::size_t index) { return elems[index]; }] *)
Definition operator_index (index : nat) (a : Array)
  : result reference * Array :=
  (subscript index, a).

(** [std::size_t] arithmetic: 64 bits, wrapping around. *)
Definition size_t_sub (x y : nat) : nat :=
  Z.to_nat ((Z.of_nat x - Z.of_nat y) mod 2 ^ 64).

(** [reference front() { return elems[0]; }] *)
Definition front (a : Array) : result reference * Array :=
  (subscript 0, a).

(** [reference back() { return elems[N - 1]; }] *)
Definition back (a : Array) : result reference * Array :=
  (subscript (size_t_sub N 1), a).

(** [static bool empty() { return false; }] *)
Definition empty : bool := false.

(** [static size_type size() { return N; }] *)
Definition size : nat := N.

(** [std::fill_n(first, count, value)]: [count] assignments through the
    iterator, which starts at offset [first]. *)
Fixpoint fill_n (l : list T) (first count : nat) (value : T) : list T :=
  match count with
  | O => l
  | S count' => fill_n (<[first := value]> l) (S first) count' value
  end.

Definition length_fill_n (l : list T) (first count : nat) (value : T)
  : length (fill_n l first count value) = length l.
Proof.
  revert l first. induction count as [|count IH]; intros l first; simpl.
  - reflexivity.
  - rewrite IH. apply length_insert.
Defined.

(** [void fill(const value_type& value) { std::fill_n(begin(), N, value); }] *)
Definition fill (value : T) (a : Array) : Array :=
  {| elems := fill_n (elems a) 0 N value;
     elems_size := eq_trans (length_fill_n (elems a) 0 N value)
                            (elems_size a) |}.

(** The compile-time checked access [get<I>(a)]:
    [(void) sizeof(char[(I < N) ? 1 : -1]); return a[I];].  With [I >= N]
    the array type has a negative size and the instantiation is ill-formed,
    which [None] stands for. *)
Definition get_ (I : nat) (a : Array) : option (result reference * Array) :=
  if (I <? N)%nat then Some (operator_index I a) else None.

(** *** The comparison operators

    They are written over [T]'s own [operator==] and [operator<]. *)
Context (T_eq T_lt : T -> T -> bool).

(** [std::equal(first1, last1, first2)]: the first range is walked, the
    second is read at the same offsets. *)
Fixpoint std_equal (l1 l2 : list T) : bool :=
  match l1, l2 with
  | [], _ => true
  | x :: l1', y :: l2' => if T_eq x y then std_equal l1' l2' else false
  | _ :: _, [] => false
  end.

(** [std::lexicographical_compare(first1, last1, first2, last2)]. *)
Fixpoint lexicographical_compare (l1 l2 : list T) : bool :=
  match l1, l2 with
  | x :: l1', y :: l2' =>
      if T_lt x y then true
      else if T_lt y x then false
      else lexicographical_compare l1' l2'
  | [], _ :: _ => true
  | _, [] => false
  end.

(** [operator==]: [std::equal(left.begin(), left.end(), right.begin())]. *)
Definition op_eq (left right : Array) : bool :=
  std_equal (elems left) (elems right).

(** [operator!=]: [!(left == right)]. *)
Definition op_ne (left right : Array) : bool := negb (op_eq left right).

(** [operator<]: [std::lexicographical_compare] over both ranges. *)
Definition op_lt (left right : Array) : bool :=
  lexicographical_compare (elems left) (elems right).

(** [operator>]: [right < left]. *)
Definition op_gt (left right : Array) : bool := op_lt right left.

(** [operator>=]: [!(left < right)]. *)
Definition op_ge (left right : Array) : bool := negb (op_lt left right).

(** [operator<=]: [!(right < left)]. *)
Definition op_le (left right : Array) : bool := negb (op_lt right left).

End Array.
Arguments Array : clear implicits.
Arguments Ok {X} x.
Arguments Throw {X} e.
Arguments Undefined {X}.
End Array.

(** ** scoped_ptr<T> *)

Module ScopedPtr.

(** A pointer is an address, [0] for the null pointer.  The free store is
    the set of the addresses of the objects that are alive; an operation on
    it yields [None] when its behaviour is undefined. *)
Definition free_store := gset nat.

(** [delete p]: nothing for a null pointer, the end of the object for a
    pointer to a live one, undefined for any other pointer. *)
Definition delete (p : nat) (m : free_store) : option free_store :=
  if decide (p = 0%nat) then Some m
  else if decide (p ∈ m) then Some (m ∖ {[p]})
  else None.

(** [T* px]. *)
Record scoped_ptr := { px : nat }.

(** [explicit scoped_ptr(T* p = 0) : px(p) {}] *)
Definition construct (p : nat) : scoped_ptr := {| px := p |}.

(** [~scoped_ptr() { delete px; }] *)
Definition destroy (s : scoped_ptr) (m : free_store) : option free_store :=
  delete (px s) m.

(** [void swap(scoped_ptr& b) { T* tmp = b.px; b.px = px; px = tmp; }]:
    the pair is [( *this, b)] afterwards. *)
Definition swap (this b : scoped_ptr) : scoped_ptr * scoped_ptr :=
  let tmp := px b in
  let b' := {| px := px this |} in
  let this' := {| px := tmp |} in
  (this', b').

(** [void reset(T* p = 0) { this_type(p).swap( *this); }]: the temporary
    takes the old pointer and is destroyed at the end of the statement. *)
Definition reset (p : nat) (this : scoped_ptr) (m : free_store)
  : option (scoped_ptr * free_store) :=
  let '(temporary, this') := swap (construct p) this in
  match destroy temporary m with
  | Some m' => Some (this', m')
  | None => None
  end.

(** [T* get() const { return px; }] *)
Definition get (s : scoped_ptr) : nat := px s.

(** [operator bool() const { return px != 0; }] *)
Definition operator_bool (s : scoped_ptr) : bool :=
  negb (px s =? 0)%nat.

(** [bool operator!() const { return px == 0; }] *)
Definition operator_not (s : scoped_ptr) : bool := (px s =? 0)%nat.

(** [T& operator*() const { return *px; }]: the object, when [px] points to
    a live one. *)
Definition operator_star (s : scoped_ptr) (m : free_store) : option nat :=
  if decide (px s ≠ 0%nat ∧ px s ∈ m) then Some (px s) else None.

End ScopedPtr.

(** ** The scenarios of the specification *)

(** A task computing [2 + 2]. *)
Definition two_plus_two : callable unit Z :=
  Fn (fun _ => Halts (Returns (2 + 2))).

(** A task that raises an error with message ["boom"]. *)
Definition boom : callable unit Z :=
  Fn (fun _ => Halts (Raises (runtime_error "boom"))).

(** A task whose callable returns [void]. *)
Definition nothing : callable unit Z :=
  FnVoid (fun _ => Halts (Returns tt)).

(** The same task, as a callable that is handed its argument pack. *)
Definition four : callable (list Z) Z :=
  Fn (fun _ => Halts (Returns (2 + 2))).

(** A task that adds up its arguments, as in [spawn(add_up, 2, 2)]. *)
Definition add_up : callable (list Z) Z :=
  Fn (fun args => Halts (Returns (foldr Z.add 0 args))).

(** A callable with result type [void] that returns, and one that raises
    an error with message ["boom"], each handed its argument pack. *)
Definition nothing_void : callable (list Z) Z :=
  FnVoid (fun _ => Halts (Returns tt)).

Definition boom_void : callable (list Z) Z :=
  FnVoid (fun _ => Halts (Raises (runtime_error "boom"))).

(** * Properties *)

(** ** Shared states are written once *)

Section WriteOnce.
Import Future.
Context {R : Type}.
Implicit Types (s : slot R) (h : heap R).

Lemma set_value_terminal v s :
  terminal s = true -> snd (promise_set_value v s) = s.
Proof. by destruct s. Qed.

Lemma set_value_void_terminal s :
  terminal s = true -> snd (promise_set_value_void s) = s.
Proof. by destruct s. Qed.

Lemma set_exception_terminal e s :
  terminal s = true -> snd (promise_set_exception e s) = s.
Proof. by destruct s. Qed.

Lemma abandon_terminal s : terminal s = true -> promise_abandon s = s.
Proof. by destruct s. Qed.

Lemma abandon_is_terminal s : terminal (promise_abandon s) = true.
Proof. by destruct s. Qed.

Lemma get_terminal h p s :
  h !! p = Some s -> terminal s = true ->
  get h (future_of p) = (read s, no_future).
Proof. intros Hp Hs. unfold get; simpl. rewrite Hp. by destruct s. Qed.

Lemma get_pending h p :
  h !! p = Some Pending -> get h (future_of p) = (Blocked, future_of p).
Proof. intros Hp. unfold get; simpl. by rewrite Hp. Qed.

Lemma get_no_future h : get h no_future = (NoState, no_future).
Proof. reflexivity. Qed.

End WriteOnce.

(** ** TaskManager: executions and the invariant *)

Section TaskManagerFacts.
Import Future TaskManager.
Context {A R : Type}.
Implicit Types (st : state A R) (t : task A R) (l : label A R)
  (tr : list (label A R)) (c : callable A R).

Lemma exec_app st tr1 tr2 :
  exec st (tr1 ++ tr2) =
  match exec st tr1 with Some st' => exec st' tr2 | None => None end.
Proof.
  revert st. induction tr1 as [|l tr1 IH]; intros st; simpl; [done|].
  destruct (step st l); [apply IH | done].
Qed.

Lemma exec_snoc st tr l st' :
  exec st (tr ++ [l]) = Some st' <->
  exists st1, exec st tr = Some st1 /\ step st1 l = Some st'.
Proof.
  rewrite exec_app. destruct (exec st tr) as [st1|]; simpl.
  - destruct (step st1 l) eqn:E; split.
    + intros ?; simplify_eq. eauto.
    + intros (? & ? & ?); congruence.
    + done.
    + intros (? & ? & ?); congruence.
  - split; [done | intros (? & ? & ?); done].
Qed.

(** Induction on an execution, taking its last step off. *)
Lemma exec_ind (P : list (label A R) -> state A R -> Prop) st0 :
  P [] st0 ->
  (forall tr st l st',
      exec st0 tr = Some st -> P tr st -> step st l = Some st' ->
      P (tr ++ [l]) st') ->
  forall tr st, exec st0 tr = Some st -> P tr st.
Proof.
  intros H0 Hs tr. induction tr as [|l tr IH] using rev_ind; intros st Hex.
  - simpl in Hex. by simplify_eq.
  - apply exec_snoc in Hex as (st1 & Hex & Hst). eauto.
Qed.

Lemma task_at_Some st i q t :
  task_at st i q = Some t <-> tasks st !! i = Some t /\ t_pc t = q.
Proof.
  unfold task_at. destruct (tasks st !! i) as [t'|]; [|naive_solver].
  case_decide; naive_solver.
Qed.

Lemma task_at_None st i q t :
  tasks st !! i = Some t -> t_pc t <> q -> task_at st i q = None.
Proof. intros Hi Hq. unfold task_at. rewrite Hi. by case_decide. Qed.

(** Case analysis on a step: the guards that let it through are turned
    into hypotheses, and the state it leads to is given in full. *)
Ltac step_cases H :=
  match type of H with
  | step ?st ?l = Some ?st' =>
      destruct l; simpl in H;
      repeat match type of H with
        | context [task_at ?s ?i ?q] =>
            let E := fresh "Hat" in
            destruct (task_at s i q) eqn:E;
            [apply task_at_Some in E as [? ?] | ]
        | context [match ?x with _ => _ end] =>
            let E := fresh "E" in destruct x eqn:E
        end;
      simplify_eq
  end.

Lemma lookup_moved (ts : list (task A R)) i j t tj q :
  ts !! i = Some t -> <[i := at_pc q t]> ts !! j = Some tj ->
  (j = i /\ tj = at_pc q t) \/ (j <> i /\ ts !! j = Some tj).
Proof.
  intros Hi Hj. apply list_lookup_insert_Some in Hj. naive_solver.
Qed.

Lemma length_update p g (h : heap R) : length (update p g h) = length h.
Proof.
  unfold update. destruct (h !! p); [apply length_insert | done].
Qed.

Lemma lookup_update p p' g (h : heap R) :
  update p g h !! p' = if decide (p = p') then g <$> h !! p' else h !! p'.
Proof.
  unfold update. case_decide as Hp.
  - subst p'. destruct (h !! p) as [s|] eqn:E; simpl; [|by rewrite E].
    apply list_lookup_insert_eq. by eapply lookup_lt_Some.
  - destruct (h !! p); [by apply list_lookup_insert_ne | done].
Qed.

Lemma outstanding_app (ts1 ts2 : list (task A R)) :
  outstanding (ts1 ++ ts2) = (outstanding ts1 + outstanding ts2)%nat.
Proof. induction ts1 as [|t ts1 IH]; simpl; lia. Qed.

Lemma outstanding_moved (ts : list (task A R)) i t q :
  ts !! i = Some t ->
  (outstanding (<[i := at_pc q t]> ts)
   + (if decremented (t_pc t) then 0 else 1)
   = outstanding ts + (if decremented q then 0 else 1))%nat.
Proof.
  revert i. induction ts as [|t0 ts IH]; intros [|i] Hi; simplify_eq/=.
  - lia.
  - specialize (IH _ Hi). lia.
Qed.

Lemma outstanding_le (ts : list (task A R)) :
  (outstanding ts <= length ts)%nat.
Proof. induction ts as [|t ts IH]; simpl; [lia|]. destruct (decremented _); lia. Qed.

Lemma wrap_int_succ z : wrap_int (wrap_int z + 1) = wrap_int (z + 1).
Proof.
  unfold wrap_int.
  replace (z + 2 ^ 31) with (z + 1 + 2 ^ 31 - 1) by lia.
  replace ((z + 1 + 2 ^ 31 - 1) mod 2 ^ 32 - 2 ^ 31 + 1 + 2 ^ 31)
    with ((z + 1 + 2 ^ 31 - 1) mod 2 ^ 32 + 1) by lia.
  rewrite Zplus_mod_idemp_l. f_equal. f_equal. lia.
Qed.

Lemma wrap_int_pred z : wrap_int (wrap_int z - 1) = wrap_int (z - 1).
Proof.
  unfold wrap_int.
  replace ((z + 2 ^ 31) mod 2 ^ 32 - 2 ^ 31 - 1 + 2 ^ 31)
    with ((z + 2 ^ 31) mod 2 ^ 32 + (- 1)) by lia.
  rewrite Zplus_mod_idemp_l. f_equal. f_equal. lia.
Qed.

Lemma wrap_int_small z : - 2 ^ 31 <= z < 2 ^ 31 -> wrap_int z = z.
Proof. intros Hz. unfold wrap_int. rewrite Z.mod_small; lia. Qed.

(** Looking a task up after one task has been moved. *)
Ltac moved :=
  repeat match goal with
    | Hi : tasks ?st !! ?i = Some ?t,
      H : <[?i := at_pc ?q ?t]> (tasks ?st) !! ?j = Some ?tj |- _ =>
        destruct (lookup_moved _ _ _ _ _ _ Hi H) as [[-> ->] | [? ?]];
        clear H
    end.

(** Looking a task up after [spawn] has added one. *)
Ltac added :=
  repeat match goal with
    | H : (tasks ?st ++ [?t0]) !! ?j = Some ?tj |- _ =>
        apply lookup_app_Some in H as [H | [? H]];
        [ | apply list_lookup_singleton_Some in H as [? <-] ]
    end.

Lemma step_bound st l st' :
  invariant st -> step st l = Some st' ->
  forall i t, tasks st' !! i = Some t -> (t_promise t < length (shared st'))%nat.
Proof.
  intros [Hb _ _ _ _ _ _ _] Hst. step_cases Hst; simpl; intros k tk Hk.
  all: rewrite ?length_app, ?length_update, ?length_insert; simpl.
  all: moved; added; simpl; try (by eauto); try lia.
  all: try (apply Hb in Hk; lia).
Qed.

Lemma step_inj st l st' :
  invariant st -> step st l = Some st' ->
  forall i j ti tj,
    tasks st' !! i = Some ti -> tasks st' !! j = Some tj ->
    t_promise ti = t_promise tj -> i = j.
Proof.
  intros [Hb Hi _ _ _ _ _ _] Hst.
  step_cases Hst; simpl; intros k1 k2 t1 t2 H1 H2 Heq.
  all: moved; added; simpl in *; try (by eauto).
  - apply Hb in H2. lia.
  - apply Hb in H1. lia.
  - lia.
Qed.

Lemma worker_try_terminal c a (s : slot R) :
  terminal s = true -> worker_try c a s = None \/ worker_try c a s = Some s.
Proof.
  intros Hs. unfold worker_try, set_value, set_value_void.
  destruct c as [f|f]; destruct (f a) as [[v|e]|]; destruct s; simpl in *;
    auto; done.
Qed.

Lemma step_slot st l st' :
  invariant st -> step st l = Some st' ->
  forall i t, tasks st' !! i = Some t ->
    shared st' !! t_promise t = expected_slot t.
Proof.
  intros [Hb Hi Hs _ _ _ _ _] Hst.
  step_cases Hst; simpl; intros k tk Hk.
  all: moved; added; simpl in *; try (by eauto).
  all: try match goal with
         | Hpc : t_pc ?t = _, Ht : tasks _ !! _ = Some ?t |- _ =>
             let E := fresh "Hown" in
             pose proof (Hs _ _ Ht) as E; unfold expected_slot in E;
             rewrite Hpc in E; simpl in E
         end.
  all: try (unfold expected_slot; simpl; congruence).
  all: try (rewrite lookup_app_l by eauto; by eauto).
  all: try (by rewrite list_lookup_middle).
  all: try (rewrite lookup_update, decide_True by done; by rewrite Hown).
  all: try (rewrite list_lookup_insert_eq by eauto;
            unfold expected_slot; simpl; congruence).
  all: rewrite ?lookup_update, ?decide_False, ?list_lookup_insert_ne;
    eauto.
  all: intros Heq;
    match goal with
    | Ha : tasks _ !! ?i = Some ?t, Hb : tasks _ !! ?k = Some ?tk,
      Hne : ?k <> ?i |- _ => symmetry in Heq; by apply (Hi _ _ _ _ Hb Ha) in Heq
    end.
Qed.

Lemma step_count st l st' :
  invariant st -> step st l = Some st' ->
  task_count st' = wrap_int (Z.of_nat (outstanding (tasks st'))).
Proof.
  intros [_ _ _ Hc _ _ _ _] Hst. step_cases Hst; simpl; try done.
  all: try match goal with
         | Hpc : t_pc ?t = _, Ht : tasks _ !! _ = Some ?t
           |- context [<[_ := at_pc ?q ?t]> _] =>
             let E := fresh "Hout" in
             pose proof (outstanding_moved _ _ _ q Ht) as E;
             rewrite Hpc in E; simpl in E
         end.
  all: try (rewrite Hc; f_equal; lia).
  - rewrite Hc, wrap_int_succ, outstanding_app. simpl. f_equal. lia.
  - rewrite Hc, wrap_int_pred. f_equal. lia.
Qed.

(** Adds a fact to the context unless it is there already. *)
Ltac note H :=
  let T := type of H in
  lazymatch goal with
  | _ : T |- _ => fail
  | _ => pose proof H
  end.

(** Facts about the owner of [mut] that follow from the places the tasks
    and the waiters stand at. *)
Ltac owners Hw Hh :=
  repeat match goal with
    | Ht : tasks _ !! ?i = Some ?t, Hpc : t_pc ?t = ?q |- _ =>
        let X := constr:(ltac:(rewrite Hpc; reflexivity)
                         : in_critical_section (t_pc t) = true) in
        note (Hw _ _ Ht X)
    | Hj : waiters _ !! ?j = Some Holding |- _ => note (Hh _ Hj)
    end.

Lemma step_worker st l st' :
  invariant st -> step st l = Some st' ->
  forall i t, tasks st' !! i = Some t ->
    in_critical_section (t_pc t) = true -> mut st' = Some (ByWorker i).
Proof.
  intros [_ _ _ _ _ Hw Hh _] Hst.
  step_cases Hst; simpl; intros k tk Hk Hcs'.
  all: moved; added; simpl in *; try done; try (by eauto).
  all: owners Hw Hh; try congruence.
  all: try (specialize (Hw _ _ ltac:(eassumption) Hcs'); congruence).
Qed.

(** Looking a waiter up after the waiters have changed. *)
Ltac waiting :=
  repeat match goal with
    | H : (wake <$> _) !! _ = Some _ |- _ =>
        apply list_lookup_fmap_Some in H as ([] & ? & H); simplify_eq/=
    | H : (_ ++ [_]) !! _ = Some _ |- _ =>
        apply lookup_app_Some in H as [H | [? H]];
        [ | apply list_lookup_singleton_Some in H as [? ?]; simplify_eq ]
    | H : <[_ := _]> _ !! _ = Some _ |- _ =>
        apply list_lookup_insert_Some in H as [(? & ? & ?) | [? H]];
        simplify_eq
    end.

Lemma step_waiter st l st' :
  invariant st -> step st l = Some st' ->
  forall j, waiters st' !! j = Some Holding -> mut st' = Some (ByWaiter j).
Proof.
  intros [_ _ _ _ _ Hw Hh _] Hst.
  step_cases Hst; simpl; intros k Hk.
  all: waiting; try done; try (by eauto).
  all: owners Hw Hh; try congruence.
  all: try (specialize (Hh _ ltac:(eassumption)); congruence).
Qed.

Lemma step_done st l st' :
  invariant st -> step st l = Some st' ->
  forall j o, waiters st' !! j = Some (Done o) -> o = Returns tt.
Proof.
  intros [_ _ _ _ _ _ _ Hd] Hst.
  step_cases Hst; simpl; intros k o Hk.
  all: waiting; try done; by eauto.
Qed.

Lemma step_owner st l st' :
  invariant st -> step st l = Some st' ->
  match mut st' with
  | None => True
  | Some (ByWorker i) =>
      exists t, tasks st' !! i = Some t /\ in_critical_section (t_pc t) = true
  | Some (ByWaiter j) => waiters st' !! j = Some Holding
  end.
Proof.
  intros [_ _ _ _ Ho Hw Hh _] Hst.
  step_cases Hst; simpl; try done.
  all: try (destruct (mut st) as [[i0|j0]|] eqn:Hm; [| |done]).
  all: try destruct Ho as (t0 & Ht0 & Hcs0).
  (* the owner is a worker, and some task moves *)
  all: try match goal with
         | Ht : tasks _ !! ?i = Some ?t
           |- exists _, <[?i := at_pc ?q ?t]> _ !! ?k = Some _ /\ _ =>
             destruct (decide (k = i)) as [->|Hne];
             [ exists (at_pc q t); split;
               [ apply list_lookup_insert_eq; by eapply lookup_lt_Some
               | simpl; simplify_eq;
                 first [ done
                       | match goal with
                         | Hpc : t_pc ?u = _,
                           Hc : in_critical_section (t_pc ?u) = true |- _ =>
                             rewrite Hpc in Hc; done
                         end ] ]
             | try (exists t0; split;
                    [ by rewrite list_lookup_insert_ne | done ]) ]
         end.
  (* the owner is a waiter, or nothing the owner depends on changes *)
  all: try (by eauto).
  - exists t0. split; [|done]. apply lookup_app_l_Some. done.
  - exists (at_pc Locked t). split; [|done].
    apply list_lookup_insert_eq. by eapply lookup_lt_Some.
  - by rewrite list_lookup_fmap, Ho.
  - apply lookup_app_l_Some. done.
  - apply list_lookup_insert_eq. by eapply lookup_lt_Some.
  - rewrite list_lookup_insert_ne; [done|]. congruence.
Qed.

(** The invariant is kept by every step, hence holds of every state an
    execution reaches. *)
Lemma step_invariant st l st' :
  invariant st -> step st l = Some st' -> invariant st'.
Proof.
  intros Hinv Hst. split.
  - by eapply step_bound.
  - by eapply step_inj.
  - by eapply step_slot.
  - by eapply step_count.
  - by eapply step_owner.
  - by eapply step_worker.
  - by eapply step_waiter.
  - by eapply step_done.
Qed.

Lemma init_invariant : invariant (@init A R).
Proof. split; simpl; try done. Qed.

Lemma exec_invariant st tr st' :
  invariant st -> exec st tr = Some st' -> invariant st'.
Proof.
  revert st. induction tr as [|l tr IH]; simpl; intros st Hinv Hex.
  - by simplify_eq.
  - destruct (step st l) as [st1|] eqn:Hst; [|done].
    eapply IH; [|done]. by eapply step_invariant.
Qed.

Lemma reachable_invariant st : reachable st -> invariant st.
Proof. intros [tr Hex]. eapply exec_invariant; [apply init_invariant | done]. Qed.

(** *** Shared states are written once *)

Lemma step_stable st l st' p (s : slot R) :
  step st l = Some st' ->
  shared st !! p = Some s -> terminal s = true -> shared st' !! p = Some s.
Proof.
  intros Hst Hp Hs. step_cases Hst; simpl; try done.
  all: try (by apply lookup_app_l_Some).
  all: try (rewrite lookup_update; case_decide; subst;
            rewrite Hp; simpl; by rewrite ?abandon_terminal).
  destruct (decide (t_promise t = p)) as [<-|Hne].
  - simplify_eq.
    match goal with
    | E0 : worker_try ?c ?a ?x = Some ?y, Hx : terminal ?x = true |- _ =>
        destruct (worker_try_terminal c a x Hx); simplify_eq
    end.
    apply list_lookup_insert_eq. by eapply lookup_lt_Some.
  - by rewrite list_lookup_insert_ne.
Qed.

Lemma exec_stable st tr st' p (s : slot R) :
  exec st tr = Some st' ->
  shared st !! p = Some s -> terminal s = true -> shared st' !! p = Some s.
Proof.
  revert st. induction tr as [|l tr IH]; simpl; intros st Hex Hp Hs.
  - by simplify_eq.
  - destruct (step st l) as [st1|] eqn:Hst; [|done].
    eapply IH; [done| |done]. by eapply step_stable.
Qed.

(** *** A task keeps its promise, its callable and its arguments *)

Lemma at_pc_same t : at_pc (t_pc t) t = t.
Proof. by destruct t. Qed.

Lemma step_task_kept st l st' i t :
  step st l = Some st' -> tasks st !! i = Some t ->
  exists q, tasks st' !! i = Some (at_pc q t).
Proof.
  intros Hst Hi.
  step_cases Hst; simpl.
  all: try (exists (t_pc t); rewrite at_pc_same; done).
  1: { exists (t_pc t). rewrite at_pc_same. by apply lookup_app_l_Some. }
  all: match goal with
       | |- exists _, <[?k := at_pc ?q ?u]> _ !! _ = _ =>
           destruct (decide (k = i)) as [->|];
           [ exists q; simplify_eq;
             apply list_lookup_insert_eq; by eapply lookup_lt_Some
           | exists (t_pc t); rewrite at_pc_same;
             by rewrite list_lookup_insert_ne ]
       end.
Qed.

Lemma exec_task_kept st tr st' i t :
  exec st tr = Some st' -> tasks st !! i = Some t ->
  exists q, tasks st' !! i = Some (at_pc q t).
Proof.
  revert st t. induction tr as [|l tr IH]; simpl; intros st t Hex Hi.
  - simplify_eq. exists (t_pc t). by destruct t.
  - destruct (step st l) as [st1|] eqn:Hst; [|done].
    destruct (step_task_kept _ _ _ _ _ Hst Hi) as [q Hq].
    destruct (IH _ _ Hex Hq) as [q' Hq']. by exists q'.
Qed.

(** A task whose thread has been started stays so. *)
Lemma step_launched st l st' i t :
  step st l = Some st' -> tasks st !! i = Some t ->
  launched (t_pc t) = true ->
  exists q, tasks st' !! i = Some (at_pc q t) /\ launched q = true.
Proof.
  intros Hst Hi Hl.
  step_cases Hst; simpl.
  all: try (exists (t_pc t); rewrite at_pc_same; done).
  1: { exists (t_pc t). rewrite at_pc_same.
       split; [by apply lookup_app_l_Some | done]. }
  all: match goal with
       | |- exists _, <[?k := at_pc ?q ?u]> _ !! _ = _ /\ _ =>
           destruct (decide (k = i)) as [->|];
           [ exists q; simplify_eq;
             split; [apply list_lookup_insert_eq; by eapply lookup_lt_Some|];
             first [ done
                   | exfalso;
                     match goal with
                     | H : t_pc ?u = _, H' : launched (t_pc ?u) = true |- _ =>
                         rewrite H in H'; done
                     end ]
           | exists (t_pc t); rewrite at_pc_same;
             split; [by rewrite list_lookup_insert_ne | done] ]
       end.
Qed.

Lemma exec_launched st tr st' i t :
  exec st tr = Some st' -> tasks st !! i = Some t ->
  launched (t_pc t) = true ->
  exists q, tasks st' !! i = Some (at_pc q t) /\ launched q = true.
Proof.
  revert st t. induction tr as [|l tr IH]; simpl; intros st t Hex Hi Hl.
  - simplify_eq. exists (t_pc t). by destruct t.
  - destruct (step st l) as [st1|] eqn:Hst; [|done].
    destruct (step_launched _ _ _ _ _ Hst Hi Hl) as (q & Hq & Hlq).
    destruct (IH _ _ Hex Hq Hlq) as (q' & Hq' & Hlq'). by exists q'.
Qed.

(** *** The steps of one worker, run in a row *)

Lemma task_at_moved st i t q :
  tasks st !! i = Some t -> task_at (move i t q st) i q = Some (at_pc q t).
Proof.
  intros Hi. apply task_at_Some. split; [|done]. simpl.
  apply list_lookup_insert_eq. by eapply lookup_lt_Some.
Qed.

Lemma tasks_moved st i t q :
  tasks st !! i = Some t -> tasks (move i t q st) !! i = Some (at_pc q t).
Proof.
  intros Hi. simpl. apply list_lookup_insert_eq. by eapply lookup_lt_Some.
Qed.

(** A worker that stands at [Running], whose callable comes back, and that
    finds [mut] free runs to its end: the counter goes down by one, and
    every sleeper is woken. *)
Lemma exec_worker st i t s :
  invariant st -> tasks st !! i = Some t -> t_pc t = Running ->
  mut st = None -> worker_try (t_func t) (t_args t) Pending = Some s ->
  exists st',
    exec st (worker i) = Some st' /\
    task_count st' = wrap_int (task_count st - 1) /\
    waiters st' = wake <$> waiters st /\
    tasks st' = <[i := at_pc Exited t]> (tasks st) /\
    shared st' = <[t_promise t := promise_abandon s]> (shared st) /\
    mut st' = None.
Proof.
  intros Hinv Hi Hpc Hm Hs.
  pose proof (inv_slot _ Hinv _ _ Hi) as Hp.
  unfold expected_slot in Hp. rewrite Hpc in Hp.
  assert (t_promise t < length (shared st))%nat as Hlt
    by by eapply lookup_lt_Some.
  unfold worker. cbn [exec step].
  rewrite (proj2 (task_at_Some st i Running t)) by done.
  rewrite Hp, Hs.
  set (st1 := move i t Recorded _).
  assert (tasks st1 !! i = Some (at_pc Recorded t)) as H1
    by by apply tasks_moved.
  rewrite (proj2 (task_at_Some st1 i Recorded _)) by done.
  replace (mut st1) with (@None owner) by done.
  set (st2 := move i _ Locked _).
  assert (tasks st2 !! i = Some (at_pc Locked t)) as H2
    by (apply (tasks_moved (set_mut _ st1) i (at_pc Recorded t)); done).
  rewrite (proj2 (task_at_Some st2 i Locked _)) by done.
  set (st3 := move i _ Decremented _).
  assert (tasks st3 !! i = Some (at_pc Decremented t)) as H3
    by (apply (tasks_moved (set_count _ st2) i (at_pc Locked t)); done).
  rewrite (proj2 (task_at_Some st3 i Decremented _)) by done.
  set (st4 := move i _ Notified _).
  assert (tasks st4 !! i = Some (at_pc Notified t)) as H4
    by (apply (tasks_moved (set_waiters _ st3) i (at_pc Decremented t)); done).
  rewrite (proj2 (task_at_Some st4 i Notified _)) by done.
  set (st5 := move i _ Unlocked _).
  assert (tasks st5 !! i = Some (at_pc Unlocked t)) as H5
    by (apply (tasks_moved (set_mut _ st4) i (at_pc Notified t)); done).
  rewrite (proj2 (task_at_Some st5 i Unlocked _)) by done.
  eexists. split; [done|].
  subst st5 st4 st3 st2 st1. simpl.
  rewrite !list_insert_insert_eq.
  split_and!; try done.
  unfold update. rewrite list_lookup_insert_eq by done.
  by rewrite list_insert_insert_eq.
Qed.

(** Whoever holds [mut] can let go of it: the steps that take the holder
    out of its critical section are enabled, and they leave the tasks
    outside the critical section and the shared states alone; a thread that
    sleeps in [wait_all] sleeps on or has been woken. *)
Lemma exec_release st :
  invariant st ->
  exists tr st',
    exec st tr = Some st' /\ mut st' = None /\ shared st' = shared st /\
    (forall i t, tasks st !! i = Some t ->
       in_critical_section (t_pc t) = false -> tasks st' !! i = Some t) /\
    (forall j, waiters st !! j = Some Sleeping ->
       waiters st' !! j = Some Sleeping \/ waiters st' !! j = Some Acquiring).
Proof.
  intros Hinv. pose proof (inv_owner _ Hinv) as Ho.
  destruct (mut st) as [[i|j]|] eqn:Hm.
  - destruct Ho as (t & Hi & Hcs).
    assert (forall q k u, tasks st !! k = Some u ->
              in_critical_section (t_pc u) = false ->
              <[i := at_pc q t]> (tasks st) !! k = Some u) as Hother.
    { intros q k u Hk Hu. rewrite list_lookup_insert_ne; [done|].
      intros ->. congruence. }
    assert (i < length (tasks st))%nat as Hlt by by eapply lookup_lt_Some.
    destruct (t_pc t) eqn:Hpc; try done.
    + exists [Decr i; Notify i; Unlock i]. cbn [exec step].
      rewrite (proj2 (task_at_Some st i Locked t)) by done.
      set (st1 := move i t Decremented _).
      rewrite (proj2 (task_at_Some st1 i Decremented (at_pc Decremented t)))
        by (split; [by apply (tasks_moved (set_count _ st)) | done]).
      set (st2 := move i _ Notified _).
      rewrite (proj2 (task_at_Some st2 i Notified (at_pc Notified t)))
        by (split; [|done];
            apply (tasks_moved (set_waiters _ st1) i (at_pc Decremented t));
            by apply (tasks_moved (set_count _ st))).
      eexists. split; [done|]. subst st2 st1. simpl.
      rewrite !list_insert_insert_eq. split_and!; eauto.
      intros j Hj. right. by rewrite list_lookup_fmap, Hj.
    + exists [Notify i; Unlock i]. cbn [exec step].
      rewrite (proj2 (task_at_Some st i Decremented t)) by done.
      set (st1 := move i t Notified _).
      rewrite (proj2 (task_at_Some st1 i Notified (at_pc Notified t)))
        by (split; [by apply (tasks_moved (set_waiters _ st)) | done]).
      eexists. split; [done|]. subst st1. simpl.
      rewrite !list_insert_insert_eq. split_and!; eauto.
      intros j Hj. right. by rewrite list_lookup_fmap, Hj.
    + exists [Unlock i]. cbn [exec step].
      rewrite (proj2 (task_at_Some st i Notified t)) by done.
      eexists. split; [done|]. simpl. split_and!; eauto.
  - exists [WTest j]. cbn [exec step]. rewrite Ho.
    destruct (task_count st =? 0); eexists; (split; [done|]); simpl;
      split_and!; eauto; intros j' Hj'; left;
      (rewrite list_lookup_insert_ne; [done|]); intros ->; congruence.
  - exists [], st. split_and!; eauto.
Qed.

(** *** Counting the increments and the decrements of an execution *)

Lemma registered_snoc tr l :
  registered (tr ++ [l]) =
  (registered tr + match l with SpawnCall _ _ => 1 | _ => 0 end)%nat.
Proof. induction tr as [|[] tr IH]; simpl; try lia; by destruct l. Qed.

Lemma finished_snoc tr l :
  finished (tr ++ [l]) =
  (finished tr + match l with Decr _ => 1 | _ => 0 end)%nat.
Proof. induction tr as [|[] tr IH]; simpl; try lia; by destruct l. Qed.

Lemma decrements_of_snoc i tr l :
  decrements_of i (tr ++ [l]) =
  (decrements_of i tr
   + match l with Decr k => if decide (k = i) then 1 else 0 | _ => 0 end)%nat.
Proof.
  induction tr as [|[] tr IH]; simpl; try lia.
  all: try (destruct l; try done; case_decide; lia).
Qed.

Lemma exec_registered tr st :
  exec init tr = Some st -> length (tasks st) = registered tr.
Proof.
  revert tr st.
  apply (exec_ind (fun tr st => length (tasks st) = registered tr)); [done|].
  intros tr' st l st' _ IH Hst. rewrite registered_snoc.
  step_cases Hst; simpl; rewrite ?length_app, ?length_insert; simpl; lia.
Qed.

Lemma exec_finished tr st :
  exec init tr = Some st ->
  (finished tr + outstanding (tasks st) = registered tr)%nat.
Proof.
  revert tr st.
  apply (exec_ind (fun tr st =>
    (finished tr + outstanding (tasks st) = registered tr)%nat)); [done|].
  intros tr' st l st' _ IH Hst. rewrite registered_snoc, finished_snoc.
  step_cases Hst; simpl; try lia.
  all: try match goal with
         | Hpc : t_pc ?t = _, Ht : tasks _ !! _ = Some ?t
           |- context [<[_ := at_pc ?q ?t]> _] =>
             let E := fresh "Hout" in
             pose proof (outstanding_moved _ _ _ q Ht) as E;
             rewrite Hpc in E; simpl in E
         end.
  all: try lia.
  rewrite outstanding_app. simpl. lia.
Qed.

Lemma exec_decrements tr st i :
  exec init tr = Some st ->
  decrements_of i tr =
  match tasks st !! i with
  | Some t => if decremented (t_pc t) then 1 else 0
  | None => 0
  end%nat.
Proof.
  revert tr st.
  apply (exec_ind (fun tr st =>
    decrements_of i tr =
    match tasks st !! i with
    | Some t => if decremented (t_pc t) then 1 else 0
    | None => 0
    end%nat)); [done|].
  intros tr' st l st' _ IH Hst. rewrite decrements_of_snoc, IH. clear IH.
  step_cases Hst; simpl; try lia.
  1: { destruct (tasks st !! i) as [u|] eqn:Hu.
       - by rewrite (lookup_app_l_Some _ _ _ _ Hu), Nat.add_0_r.
       - apply lookup_ge_None in Hu.
         destruct (decide (i = length (tasks st))) as [->|].
         + by rewrite list_lookup_middle.
         + rewrite lookup_ge_None_2; [done|]. rewrite length_app. simpl. lia. }
  all: match goal with
       | Ht : tasks _ !! ?k = Some ?t, Hpc : t_pc ?t = _
         |- context [<[?k := _]> _ !! _] =>
           destruct (decide (k = i)) as [->|];
           [ rewrite list_lookup_insert_eq by (by eapply lookup_lt_Some);
             rewrite Ht, Hpc; simpl; try done
           | rewrite list_lookup_insert_ne by done; try lia ]
       end.
  all: try (by rewrite decide_True).
  all: rewrite decide_False by done; lia.
Qed.

(** *** What the try/catch block of the worker leaves in the promise *)

Lemma worker_try_returns (f : A -> behaviour R) a (v : R) :
  f a = Halts (Returns v) ->
  worker_try (Fn f) a Pending = Some (Resolved v).
Proof. intros Hf. unfold worker_try, set_value. by rewrite Hf. Qed.

Lemma worker_try_void (f : A -> behaviour unit) a u :
  f a = Halts (Returns u) ->
  worker_try (R := R) (FnVoid f) a Pending = Some Pending.
Proof. intros Hf. unfold worker_try, set_value_void. by rewrite Hf. Qed.


Lemma worker_try_comes_back c a :
  comes_back c a <-> is_Some (worker_try c a Pending).
Proof.
  destruct c as [f|f]; simpl; unfold worker_try, set_value, set_value_void;
    destruct (f a) as [[x|e]|]; simpl; split; intros H; try done;
    try (by eexists); by destruct H.
Qed.

(** *** A call of [spawn] and the executions after it *)

(** The task a call of [spawn] registers, in every later state: it has the
    callable and the arguments of the call, and its promise holds what
    [expected_slot] says. *)
Lemma spawned_task tr0 st0 c a tr st :
  exec init tr0 = Some st0 ->
  exec (spawn_call c a st0) tr = Some st ->
  invariant st /\
  exists q,
    let t := {| t_promise := length (shared st0); t_func := c; t_args := a;
                t_pc := q |} in
    tasks st !! length (tasks st0) = Some t /\
    shared st !! length (shared st0) = expected_slot t.
Proof.
  intros H0 Hex.
  assert (invariant (spawn_call c a st0)) as Hinv1.
  { eapply (step_invariant st0 (SpawnCall c a)); [|done].
    eapply exec_invariant; [apply init_invariant | done]. }
  assert (invariant st) as Hinv by by eapply exec_invariant.
  split; [done|].
  destruct (exec_task_kept _ _ _ (length (tasks st0))
              {| t_promise := length (shared st0); t_func := c; t_args := a;
                 t_pc := Registered |} Hex) as [q Hq].
  { simpl. by apply list_lookup_middle. }
  exists q. simpl. split; [done|].
  apply (inv_slot _ Hinv _ _ Hq).
Qed.

(** *** The result of a task that throws *)

(** Any worker that stands before its try block and whose callable comes
    back, be it by returning or by throwing, can run to its end once [mut]
    is let go of; the run takes the counter down by one and wakes every
    thread sleeping in [wait_all]: whoever slept is about to lock [mut]
    again, and nobody sleeps any more. *)
Lemma worker_decrements st k u :
  invariant st -> tasks st !! k = Some u -> t_pc u = Running ->
  comes_back (t_func u) (t_args u) ->
  exists tr1 st1 st2,
    exec st tr1 = Some st1 /\ exec st1 (worker k) = Some st2 /\
    task_count st2 = wrap_int (task_count st1 - 1) /\
    waiters st2 = wake <$> waiters st1 /\
    shared st2 !! t_promise u =
      promise_abandon <$> worker_try (t_func u) (t_args u) Pending /\
    (forall j, waiters st !! j = Some Sleeping ->
       waiters st2 !! j = Some Acquiring) /\
    (forall j, waiters st1 !! j = Some Sleeping ->
       waiters st2 !! j = Some Acquiring) /\
    (forall j, waiters st2 !! j = Some Sleeping -> False).
Proof.
  intros Hinv Hk Hpc Hback.
  apply worker_try_comes_back in Hback as [s Hs].
  destruct (exec_release st Hinv)
    as (tr1 & st1 & Hex1 & Hm1 & _ & Hkeep & Hsleep).
  assert (invariant st1) as Hinv1 by by eapply exec_invariant.
  assert (tasks st1 !! k = Some u) as Hk1
    by (apply Hkeep; [done | by rewrite Hpc]).
  destruct (exec_worker st1 k u s Hinv1 Hk1 Hpc Hm1 Hs)
    as (st2 & Hex2 & Hc & Hw & _ & Hsh & _).
  exists tr1, st1, st2. split_and!; try done.
  - rewrite Hsh, Hs. simpl. apply list_lookup_insert_eq.
    apply (inv_bound _ Hinv1 _ _ Hk1).
  - intros j Hj. rewrite Hw, list_lookup_fmap.
    by destruct (Hsleep j Hj) as [-> | ->].
  - intros j Hj. by rewrite Hw, list_lookup_fmap, Hj.
  - intros j. rewrite Hw, list_lookup_fmap.
    by destruct (waiters st1 !! j) as [[]|].
Qed.


(** *** The result of a task whose callable returns [void] *)

(** C1.  A call [spawn(f, a)] whose callable has result type [void] and
    returns: the overload of [set_value] for [std::promise<void>] leaves the
    promise alone, so the shared state of the returned future stays pending
    while the worker runs, counter decrement included, and receives
    [broken_promise] when the worker's promise is destroyed; it never is in
    the ready state without a value, and [get()] suspends, then throws
    [future_error(broken_promise)]. *)
Theorem tm_void_task_broken_promise tr0 st0 (f : A -> behaviour unit) a tr st :
  exec init tr0 = Some st0 ->
  f a = Halts (Returns tt) ->
  exec (spawn_call (FnVoid f) a st0) tr = Some st ->
  let i := length (tasks st0) in
  let p := length (shared st0) in
  exists q,
    tasks st !! i =
      Some {| t_promise := p; t_func := FnVoid f; t_args := a; t_pc := q |} /\
    shared st !! p =
      Some (match q with
            | Exited | LaunchFailed => Failed (future_error broken_promise)
            | _ => Pending
            end) /\
    shared st !! p <> Some ResolvedVoid /\
    get (shared st) (future_of p) =
      match q with
      | Exited | LaunchFailed =>
          (Rethrown (future_error broken_promise), no_future)
      | _ => (Blocked, future_of p)
      end.
Proof.
  intros H0 Hf Hex i p.
  destruct (spawned_task _ _ _ _ _ _ H0 Hex) as (Hinv & q & Hq & Hslot).
  fold i p in Hq, Hslot. unfold expected_slot in Hslot. simpl in Hslot.
  rewrite (worker_try_void _ _ _ Hf) in Hslot. simpl in Hslot.
  exists q. split; [done|].
  destruct q; simpl in *; rewrite Hslot; split_and!; try done;
    first [ by apply get_pending | by apply (get_terminal _ _ _ Hslot) ].
Qed.

(** *** A call of [spawn] whose thread cannot be started *)

Lemma spawn_eq c a ok st :
  spawn c a ok st =
  match exec st [SpawnCall c a; Launch (length (tasks st)) ok] with
  | Some st' =>
      Some (st',
            spawn_result {| t_promise := length (shared st); t_func := c;
                            t_args := a; t_pc := Registered |} ok)
  | None => None
  end.
Proof.
  unfold spawn. cbn [exec]. cbn [step].
  set (st1 := spawn_call c a st).
  replace (tasks st1 !! length (tasks st)) with
    (Some {| t_promise := length (shared st); t_func := c; t_args := a;
             t_pc := Registered |})
    by (symmetry; simpl; by apply list_lookup_middle).
  by destruct (match task_at st1 _ _ with Some _ => _ | None => _ end).
Qed.

(** [spawn] when the thread is started: the new task is the last one and
    its worker is about to run. *)
Lemma spawn_launched c a st :
  let t0 := {| t_promise := length (shared st); t_func := c; t_args := a;
               t_pc := Registered |} in
  let st1 := move (length (tasks st)) t0 Running (spawn_call c a st) in
  step (spawn_call c a st) (Launch (length (tasks st)) true) = Some st1 /\
  spawn c a true st = Some (st1, Returns (future_of (length (shared st)))) /\
  tasks st1 !! length (tasks st) = Some (at_pc Running t0).
Proof.
  intros t0 st1. unfold spawn. cbn [step].
  assert (tasks (spawn_call c a st) !! length (tasks st) = Some t0) as Ht
    by (simpl; by apply list_lookup_middle).
  rewrite Ht, (proj2 (task_at_Some _ _ Registered t0) (conj Ht eq_refl)).
  split_and!; try done. by apply tasks_moved.
Qed.

(** [spawn] when the thread cannot be started: the counter has gone up,
    and the new task has no worker. *)
Lemma spawn_launch_failed c a st :
  exists st',
    spawn c a false st = Some (st', Raises system_error) /\
    task_count st' = wrap_int (task_count st + 1) /\
    tasks st' = tasks st ++
      [{| t_promise := length (shared st); t_func := c; t_args := a;
          t_pc := LaunchFailed |}].
Proof.
  unfold spawn. cbn [step].
  set (t0 := {| t_promise := length (shared st); t_func := c; t_args := a;
                t_pc := Registered |}).
  assert (tasks (spawn_call c a st) !! length (tasks st) = Some t0) as Ht
    by (simpl; by apply list_lookup_middle).
  rewrite Ht, (proj2 (task_at_Some _ _ Registered t0) (conj Ht eq_refl)).
  eexists. split; [done|]. split; [done|]. simpl.
  replace (length (tasks st)) with (length (tasks st) + 0)%nat at 1 by lia.
  by rewrite insert_app_r.
Qed.

(** A task whose thread could not be started stays as it is. *)
Lemma step_launch_failed st l st' i t :
  step st l = Some st' -> tasks st !! i = Some t -> t_pc t = LaunchFailed ->
  tasks st' !! i = Some t.
Proof.
  intros Hst Hi Hpc. step_cases Hst; simpl; try done.
  1: by apply lookup_app_l_Some.
  all: rewrite list_lookup_insert_ne; [done|]; intros ->; congruence.
Qed.

Lemma exec_launch_failed st tr st' i t :
  exec st tr = Some st' -> tasks st !! i = Some t -> t_pc t = LaunchFailed ->
  tasks st' !! i = Some t.
Proof.
  revert st. induction tr as [|l tr IH]; simpl; intros st Hex Hi Hpc.
  - by simplify_eq.
  - destruct (step st l) as [st1|] eqn:Hst; [|done].
    eapply IH; [done| |done]. by eapply step_launch_failed.
Qed.

Lemma outstanding_pos (ts : list (task A R)) i t :
  ts !! i = Some t -> decremented (t_pc t) = false ->
  (1 <= outstanding ts)%nat.
Proof.
  revert i. induction ts as [|t0 ts IH]; intros [|i] Hi Hd; simplify_eq/=.
  - rewrite Hd. lia.
  - specialize (IH _ Hi Hd). lia.
Qed.

Lemma wrap_int_zero z : 0 <= z < 2 ^ 32 -> wrap_int z = 0 -> z = 0.
Proof.
  unfold wrap_int. intros Hz Hw.
  destruct (decide (z < 2 ^ 31)).
  - rewrite Z.mod_small in Hw; lia.
  - replace (z + 2 ^ 31) with (z - 2 ^ 31 + 1 * 2 ^ 32) in Hw by lia.
    rewrite Z.mod_add, Z.mod_small in Hw; lia.
Qed.

(** After a failed launch the counter is stuck above zero (as long as
    fewer than [2 ^ 32] calls of [spawn] have been made), so that no
    [wait_all] comes back any more. *)
Lemma launch_failure_blocks_wait_all st i t tr st' :
  invariant st -> tasks st !! i = Some t -> t_pc t = LaunchFailed ->
  exec st tr = Some st' -> Z.of_nat (length (tasks st')) < 2 ^ 32 ->
  task_count st' <> 0.
Proof.
  intros Hinv Hi Hpc Hex Hlen Hc.
  assert (invariant st') as Hinv' by by eapply exec_invariant.
  pose proof (exec_launch_failed _ _ _ _ _ Hex Hi Hpc) as Hi'.
  pose proof (outstanding_pos _ _ _ Hi' ltac:(by rewrite Hpc)).
  pose proof (outstanding_le (tasks st')).
  rewrite (inv_count _ Hinv') in Hc. apply wrap_int_zero in Hc; lia.
Qed.

(** C2.  A call of [spawn] whose [std::thread] cannot be started throws
    [system_error] to its caller, and by then [task_count++] has been
    executed: the counter is one above its value before the call (on
    [int]), and the task that was registered has no worker to take it down
    again. *)
Theorem tm_spawn_launch_failure (c : callable A R) a st :
  exists st',
    spawn c a false st = Some (st', Raises system_error) /\
    task_count st' = wrap_int (task_count st + 1) /\
    tasks st' !! length (tasks st) =
      Some {| t_promise := length (shared st); t_func := c; t_args := a;
              t_pc := LaunchFailed |} /\
    step st' (Run (length (tasks st))) = None /\
    step st' (Decr (length (tasks st))) = None.
Proof.
  unfold spawn. cbn [step].
  set (t0 := {| t_promise := length (shared st); t_func := c; t_args := a;
                t_pc := Registered |}).
  assert (tasks (spawn_call c a st) !! length (tasks st) = Some t0) as Ht
    by (simpl; by apply list_lookup_middle).
  rewrite Ht, (proj2 (task_at_Some _ _ Registered t0) (conj Ht eq_refl)).
  eexists. split; [done|].
  assert (<[length (tasks st) := at_pc LaunchFailed t0]> (tasks st ++ [t0])
            !! length (tasks st) = Some (at_pc LaunchFailed t0)) as Ht'.
  { apply list_lookup_insert_eq. rewrite length_app. simpl. lia. }
  split_and!; try done.
  - cbn [step]. by erewrite task_at_None; [| exact Ht' | ].
  - cbn [step]. by erewrite task_at_None; [| exact Ht' | ].
Qed.

(** *** A future made ready by [spawn_with_result] *)

(** C8.  [spawn_with_result(v)] returns a valid future whose shared state
    holds [v] already: [get()] returns [v] and [wait()] returns, at once and
    in every later state; no task is added, and the counter, [mut] and the
    waiters are as before. *)
Theorem tm_spawn_with_result_ready (st : state A R) (v : R) :
  let st1 := fst (spawn_with_result v st) in
  let h := snd (spawn_with_result v st) in
  valid h = true /\
  get (shared st1) h = (GotValue v, no_future) /\
  wait (shared st1) h = WaitReturned /\
  tasks st1 = tasks st /\
  task_count st1 = task_count st /\
  mut st1 = mut st /\
  waiters st1 = waiters st /\
  step st (SpawnWithResult v) = Some st1 /\
  (forall tr st',
     exec st1 tr = Some st' ->
     get (shared st') h = (GotValue v, no_future) /\
     wait (shared st') h = WaitReturned).
Proof.
  intros st1 h.
  assert (shared st1 !! length (shared st) = Some (Resolved v)) as Hp
    by (simpl; by apply list_lookup_middle).
  split_and!; try done.
  - by apply (get_terminal _ _ _ Hp).
  - unfold wait, h. simpl. by rewrite list_lookup_middle.
  - intros tr st' Hex.
    assert (shared st' !! length (shared st) = Some (Resolved v)) as Hp'
      by (eapply exec_stable; eauto).
    split; [by apply (get_terminal _ _ _ Hp')|].
    unfold wait, h. simpl. by rewrite Hp'.
Qed.

(** *** The counter *)

(** The counter is touched by [task_count++] in [spawn] and by
    [task_count--] in [worker], and by nothing else. *)
Lemma step_task_count st l st' :
  step st l = Some st' ->
  task_count st' =
  match l with
  | SpawnCall _ _ => wrap_int (task_count st + 1)
  | Decr _ => wrap_int (task_count st - 1)
  | _ => task_count st
  end.
Proof. intros Hst. by step_cases Hst. Qed.

Lemma counts_length (ts : list (task A R)) :
  (committed ts + launch_failures ts = length ts)%nat /\
  (outstanding ts + completed ts = length ts)%nat /\
  (completed ts <= committed ts)%nat.
Proof.
  induction ts as [|t ts (IH1 & IH2 & IH3)]; simpl; [done|].
  destruct (t_pc t); simpl; repeat case_decide; try done; lia.
Qed.

Lemma counts_app (ts1 ts2 : list (task A R)) :
  committed (ts1 ++ ts2) = (committed ts1 + committed ts2)%nat /\
  launch_failures (ts1 ++ ts2)
    = (launch_failures ts1 + launch_failures ts2)%nat /\
  completed (ts1 ++ ts2) = (completed ts1 + completed ts2)%nat.
Proof.
  induction ts1 as [|t ts1 (IH1 & IH2 & IH3)]; simpl; [done|].
  rewrite IH1, IH2, IH3. lia.
Qed.

(** C9.  In every state an execution reaches, with fewer than [2 ^ 31]
    tasks outstanding at once (the counter is an [int]): the counter is
    the number of tasks [spawn] has committed to launching, minus the
    number whose worker has executed [task_count--], plus the number of
    calls of [spawn] whose thread could not be started.  It is not
    negative, and it is what the invariant says as long as no launch has
    failed; after a failed launch it is above that, and a task whose
    launch has failed stays as it is in every later state.  Every call of
    [spawn] has incremented it once, the failed ones included, and the
    worker of a task has decremented it once if it stands past
    [task_count--] and not at all otherwise.  And in every such state a
    call of [spawn] whose thread cannot be started leaves the counter one
    up with nothing more committed and nothing more finished. *)
Theorem tm_count_invariant tr (st : state A R) :
  exec init tr = Some st ->
  Z.of_nat (outstanding (tasks st)) < 2 ^ 31 ->
  let claimed :=
    Z.of_nat (committed (tasks st)) - Z.of_nat (completed (tasks st)) in
  task_count st = claimed + Z.of_nat (launch_failures (tasks st)) /\
  0 <= claimed <= task_count st /\
  (launch_failures (tasks st) = 0%nat -> task_count st = claimed) /\
  ((0 < launch_failures (tasks st))%nat -> claimed < task_count st) /\
  (committed (tasks st) + launch_failures (tasks st))%nat = registered tr /\
  completed (tasks st) = finished tr /\
  (forall i, (decrements_of i tr <= 1)%nat) /\
  (forall i t, tasks st !! i = Some t ->
     decrements_of i tr = if decremented (t_pc t) then 1%nat else 0%nat) /\
  (forall i t tr' st',
     tasks st !! i = Some t -> t_pc t = LaunchFailed ->
     exec st tr' = Some st' -> tasks st' !! i = Some t) /\
  (forall c a,
     exists st',
       spawn c a false st = Some (st', Raises system_error) /\
       task_count st' = wrap_int (task_count st + 1) /\
       committed (tasks st') = committed (tasks st) /\
       completed (tasks st') = completed (tasks st) /\
       launch_failures (tasks st') = S (launch_failures (tasks st))).
Proof.
  intros Hex Hout claimed.
  pose proof (exec_invariant _ _ _ init_invariant Hex) as Hinv.
  pose proof (exec_finished _ _ Hex) as Hfin.
  pose proof (exec_registered _ _ Hex) as Hlen.
  destruct (counts_length (tasks st)) as (Hcl & Hol & Hle).
  assert (task_count st = Z.of_nat (outstanding (tasks st))) as Hc.
  { rewrite (inv_count _ Hinv), wrap_int_small; lia. }
  subst claimed. split_and!; try lia.
  - intros i. rewrite (exec_decrements _ _ i Hex).
    destruct (tasks st !! i) as [t|]; [|lia]. destruct (decremented _); lia.
  - intros i t Hi. by rewrite (exec_decrements _ _ i Hex), Hi.
  - intros i t tr' st' Hi Hpc Hex'. by eapply exec_launch_failed.
  - intros c a.
    destruct (spawn_launch_failed c a st) as (st' & Hsp & Hc' & Ht').
    exists st'. split; [done|]. split; [done|]. rewrite Ht'.
    destruct (counts_app (tasks st)
                [{| t_promise := length (shared st); t_func := c;
                    t_args := a; t_pc := LaunchFailed |}])
      as (-> & -> & ->).
    simpl. lia.
Qed.

(** [n] calls of [spawn] in a row take the counter up by [n], on [int]. *)
Lemma exec_spawns c a n st z :
  task_count st = wrap_int z ->
  exists st',
    exec st (spawns c a (length (tasks st)) n) = Some st' /\
    task_count st' = wrap_int (z + Z.of_nat n) /\
    length (tasks st') = (length (tasks st) + n)%nat.
Proof.
  revert st z. induction n as [|n IH]; intros st z Hz.
  - exists st. rewrite Z.add_0_r, Nat.add_0_r. done.
  - cbn [spawns exec]. cbn [step].
    set (t0 := {| t_promise := length (shared st); t_func := c; t_args := a;
                  t_pc := Registered |}).
    assert (tasks (spawn_call c a st) !! length (tasks st) = Some t0) as Ht
      by (simpl; by apply list_lookup_middle).
    rewrite (proj2 (task_at_Some _ _ Registered t0) (conj Ht eq_refl)).
    set (st1 := move _ t0 Running _).
    assert (length (tasks st1) = S (length (tasks st))) as Hlen.
    { simpl. rewrite length_insert, length_app. simpl. lia. }
    destruct (IH st1 (z + 1)) as (st' & Hex & Hc & Hl).
    { simpl. by rewrite Hz, wrap_int_succ. }
    rewrite Hlen in Hex, Hl. exists st'. split; [done|].
    split; [rewrite Hc; f_equal; lia | lia].
Qed.

(** *** What [wait_all] coming back says about the results *)

Lemma outstanding_zero (ts : list (task A R)) i t :
  outstanding ts = 0%nat -> ts !! i = Some t -> decremented (t_pc t) = true.
Proof.
  revert i. induction ts as [|t0 ts IH]; intros [|i] H0 Hi; simplify_eq/=.
  - destruct (decremented (t_pc t)); [done | lia].
  - apply (IH i); [|done]. destruct (decremented (t_pc t0)); lia.
Qed.

(** In a state with the counter at zero (and fewer than [2 ^ 32] tasks),
    every worker has executed [task_count--], and the promise of every task
    whose try/catch block wrote to it is ready.  The tasks left out are
    those whose callable returns [void]: their promise is made ready, with
    [broken_promise], when the worker returns. *)
Lemma drained st i t :
  invariant st -> task_count st = 0 ->
  Z.of_nat (length (tasks st)) < 2 ^ 32 ->
  tasks st !! i = Some t ->
  decremented (t_pc t) = true /\
  (worker_try (t_func t) (t_args t) Pending <> Some Pending ->
   exists s, shared st !! t_promise t = Some s /\ terminal s = true).
Proof.
  intros Hinv Hc Hlen Hi.
  pose proof (outstanding_le (tasks st)).
  rewrite (inv_count _ Hinv) in Hc.
  assert (outstanding (tasks st) = 0%nat) as Hout
    by (apply wrap_int_zero in Hc; lia).
  assert (decremented (t_pc t) = true) as Hd
    by by eapply outstanding_zero.
  split; [done|]. intros Hw.
  pose proof (inv_slot _ Hinv _ _ Hi) as Hs.
  pose proof (inv_bound _ Hinv _ _ Hi) as Hb.
  apply lookup_lt_is_Some in Hb as [s Hp]. exists s. split; [done|].
  rewrite Hp in Hs. unfold expected_slot in Hs.
  destruct (t_pc t); try done;
    destruct (worker_try _ _ _) as [[]|]; simplify_eq/=; done.
Qed.

(** *** The mutex, the condition variable and the drain *)

(** In every state an execution reaches, [mut] is held by one thread at
    most: two workers are never both between their lock and their unlock,
    no caller of [wait_all] tests the predicate while a worker is there,
    two callers never test it at once, and when [mut] is free nobody is in
    a critical section. *)
Theorem tm_mutual_exclusion tr st :
  exec init tr = Some st ->
  (forall i j ti tj,
     tasks st !! i = Some ti -> tasks st !! j = Some tj ->
     in_critical_section (t_pc ti) = true ->
     in_critical_section (t_pc tj) = true -> i = j) /\
  (forall i t j,
     tasks st !! i = Some t -> in_critical_section (t_pc t) = true ->
     waiters st !! j = Some Holding -> False) /\
  (forall j j',
     waiters st !! j = Some Holding -> waiters st !! j' = Some Holding ->
     j = j') /\
  (mut st = None ->
     (forall i t, tasks st !! i = Some t ->
        in_critical_section (t_pc t) = false) /\
     (forall j, waiters st !! j = Some Holding -> False)).
Proof.
  intros Hex. pose proof (exec_invariant _ _ _ init_invariant Hex) as Hinv.
  pose proof (inv_worker _ Hinv) as Hw. pose proof (inv_waiter _ Hinv) as Hh.
  split_and!.
  - intros i j ti tj Hi Hj Hci Hcj.
    pose proof (Hw _ _ Hi Hci). pose proof (Hw _ _ Hj Hcj). congruence.
  - intros i t j Hi Hci Hj.
    pose proof (Hw _ _ Hi Hci). pose proof (Hh _ Hj). congruence.
  - intros j j' Hj Hj'.
    pose proof (Hh _ Hj). pose proof (Hh _ Hj'). congruence.
  - intros Hm. split.
    + intros i t Hi. destruct (in_critical_section (t_pc t)) eqn:Hc; [|done].
      pose proof (Hw _ _ Hi Hc). congruence.
    + intros j Hj. pose proof (Hh _ Hj). congruence.
Qed.

(** When a caller of [wait_all] tests the predicate and comes back, the
    counter is zero; if fewer than [2 ^ 32] tasks have been spawned, every
    worker has then executed [task_count--], and the shared state of every
    task whose try/catch block wrote a value or an exception is ready. *)
Theorem tm_wait_all_return_drained tr st j st' :
  exec init tr = Some st ->
  step st (WTest j) = Some st' ->
  waiters st' !! j = Some (Done (Returns tt)) ->
  Z.of_nat (length (tasks st)) < 2 ^ 32 ->
  task_count st = 0 /\
  forall i t,
    tasks st' !! i = Some t ->
    decremented (t_pc t) = true /\
    (worker_try (t_func t) (t_args t) Pending <> Some Pending ->
     exists s, shared st' !! t_promise t = Some s /\ terminal s = true).
Proof.
  intros Hex Hst Hdone Hlen.
  pose proof (exec_invariant _ _ _ init_invariant Hex) as Hinv.
  cbn [step] in Hst.
  destruct (waiters st !! j) as [[]|] eqn:Hj; try done.
  destruct (task_count st =? 0) eqn:Hc; simplify_eq; simpl in *.
  - apply Z.eqb_eq in Hc. split; [done|]. intros i t Hi.
    by apply (drained st i t).
  - rewrite list_lookup_insert_eq in Hdone by (by eapply lookup_lt_Some).
    done.
Qed.

Lemma step_no_lost_wakeup st l st' :
  invariant st -> step st l = Some st' ->
  (forall j, waiters st !! j = Some Sleeping ->
     (0 < outstanding (tasks st))%nat \/ notification_pending st) ->
  forall j, waiters st' !! j = Some Sleeping ->
    (0 < outstanding (tasks st'))%nat \/ notification_pending st'.
Proof.
  intros Hinv Hst IH.
  assert (forall i t q,
            tasks st !! i = Some t -> t_pc t <> Decremented ->
            notification_pending st ->
            notification_pending
              (set_tasks (<[i := at_pc q t]> (tasks st)) st)) as Hkeep.
  { intros i t q Hi Hpc (k & u & Hk & Hku). exists k, u. split; [|done].
    simpl. rewrite list_lookup_insert_ne; [done|]. intros ->. congruence. }
  step_cases Hst; simpl; intros j' Hj'.
  all: try match goal with
         | Hpc : t_pc ?t = _, Ht : tasks _ !! _ = Some ?t
           |- context [<[_ := at_pc ?q ?t]> _] =>
             let E := fresh "Hout" in
             pose proof (outstanding_moved _ _ _ q Ht) as E;
             rewrite Hpc in E; simpl in E
         end.
  all: waiting.
  all: try (destruct (IH _ ltac:(eassumption)) as [Hpos|Hpend];
            [ left; simpl in *; lia
            | right;
              first [ exact Hpend
                    | apply (Hkeep _ _ _ ltac:(eassumption)
                               ltac:(congruence) Hpend)
                    | destruct Hpend as (k & u & Hk & Hku); exists k, u;
                      split; [|done]; simpl; by apply lookup_app_l_Some ] ]).
  - left. rewrite outstanding_app. simpl. lia.
  - right. exists i, (at_pc Decremented t). split; [|done]. simpl.
    apply list_lookup_insert_eq. by eapply lookup_lt_Some.
  - left. destruct (outstanding (tasks st)) eqn:Hout; [|lia].
    pose proof (inv_count _ Hinv) as Hc. rewrite Hout in Hc.
    match goal with H : (task_count st =? 0) = false |- _ =>
      apply Z.eqb_neq in H; by rewrite Hc in H end.
Qed.

Lemma exec_no_lost_wakeup tr st j :
  exec init tr = Some st -> waiters st !! j = Some Sleeping ->
  (0 < outstanding (tasks st))%nat \/ notification_pending st.
Proof.
  intros Hex. revert j. revert tr st Hex.
  apply (exec_ind (fun tr st => forall j,
    waiters st !! j = Some Sleeping ->
    (0 < outstanding (tasks st))%nat \/ notification_pending st)); [done|].
  intros tr st l st' Hex IH Hst j.
  eapply step_no_lost_wakeup; [|done..].
  by eapply exec_invariant; [apply init_invariant|].
Qed.

(** No wakeup is lost: while a thread sleeps in [wait_all], either some
    task has not executed [task_count--] yet, or a worker has and is about
    to call [cond.notify_all()]; and that call is enabled and wakes every
    sleeper. *)
Theorem tm_no_lost_wakeup tr st j :
  exec init tr = Some st ->
  waiters st !! j = Some Sleeping ->
  ((0 < outstanding (tasks st))%nat \/ notification_pending st) /\
  (forall k u,
     tasks st !! k = Some u -> t_pc u = Decremented ->
     exists st',
       step st (Notify k) = Some st' /\
       waiters st' !! j = Some Acquiring /\
       forall j', waiters st' !! j' <> Some Sleeping).
Proof.
  intros Hex Hj. split; [by eapply exec_no_lost_wakeup|].
  intros k u Hk Hpc. cbn [step].
  rewrite (proj2 (task_at_Some st k Decremented u)) by done.
  eexists. split; [done|]. simpl. split.
  - by rewrite list_lookup_fmap, Hj.
  - intros j' Hj'. apply list_lookup_fmap_Some in Hj' as ([] & ? & ?); done.
Qed.

Lemma tm_launch_failed_task c a st0 st1 :
  exec st0 [SpawnCall c a; Launch (length (tasks st0)) false] = Some st1 ->
  exists t, tasks st1 !! length (tasks st0) = Some t /\ t_pc t = LaunchFailed.
Proof.
  cbn [exec step]. 
  set (t0 := {| t_promise := length (shared st0); t_func := c; t_args := a;
                t_pc := Registered |}).
  assert (tasks (spawn_call c a st0) !! length (tasks st0) = Some t0) as Ht
    by (simpl; by apply list_lookup_middle).
  rewrite (proj2 (task_at_Some _ _ Registered t0) (conj Ht eq_refl)).
  intros ?; simplify_eq. exists (at_pc LaunchFailed t0). split; [|done].
  simpl. apply list_lookup_insert_eq. rewrite length_app. simpl. lia.
Qed.

(** A shared state that is ready stays as it is, whatever the threads do
    next: [set_value], [set_exception] and the destruction of a promise
    leave a ready state alone, so a result is written once and [get()]
    yields the same at any later time. *)
Theorem tm_result_written_once st tr st' p (s : slot R) :
  exec st tr = Some st' ->
  shared st !! p = Some s -> terminal s = true ->
  shared st' !! p = Some s /\
  get (shared st') (future_of p) = get (shared st) (future_of p) /\
  fst (get (shared st') (future_of p)) = read s.
Proof.
  intros Hex Hp Hs.
  pose proof (exec_stable _ _ _ _ _ Hex Hp Hs) as Hp'.
  by rewrite (get_terminal _ _ _ Hp' Hs), (get_terminal _ _ _ Hp Hs).
Qed.

(** After a call of [spawn] whose thread could not be started, the counter
    never is zero again (as long as fewer than [2 ^ 32] calls of [spawn]
    have been made): no caller of [wait_all] that tests the predicate comes
    back, it goes to sleep. *)
Theorem tm_launch_failure_blocks_wait_all tr0 st0 c a st1 tr st j st' :
  exec init tr0 = Some st0 ->
  spawn c a false st0 = Some (st1, Raises system_error) ->
  exec st1 tr = Some st ->
  Z.of_nat (length (tasks st)) < 2 ^ 32 ->
  step st (WTest j) = Some st' ->
  task_count st <> 0 /\ waiters st' !! j = Some Sleeping.
Proof.
  intros H0 Hsp Hex Hlen Hst. rewrite spawn_eq in Hsp.
  destruct (exec st0 _) as [st1'|] eqn:Hex1; [|done]. simplify_eq.
  assert (invariant st1) as Hinv1.
  { eapply exec_invariant; [|exact Hex1].
    eapply exec_invariant; [apply init_invariant | done]. }
  destruct (tm_launch_failed_task c a st0 _ Hex1) as (t & Ht & Hpc).
  assert (task_count st <> 0) as Hc
    by by eapply (launch_failure_blocks_wait_all st1).
  split; [done|]. cbn [step] in Hst.
  destruct (waiters st !! j) as [[]|] eqn:Hj; try done.
  apply Z.eqb_neq in Hc. rewrite Hc in Hst. simplify_eq. simpl.
  apply list_lookup_insert_eq. by eapply lookup_lt_Some.
Qed.

(** *** Draining [n] tasks *)

Lemma wrap_int_add z y : wrap_int (wrap_int z + y) = wrap_int (z + y).
Proof.
  unfold wrap_int.
  replace ((z + 2 ^ 31) mod 2 ^ 32 - 2 ^ 31 + y + 2 ^ 31)
    with ((z + 2 ^ 31) mod 2 ^ 32 + y) by lia.
  rewrite Zplus_mod_idemp_l. f_equal. f_equal. lia.
Qed.

Lemma wake_wake (ws : list wait_pc) : wake <$> (wake <$> ws) = wake <$> ws.
Proof.
  rewrite <- list_fmap_compose. apply list_fmap_ext. by intros _ [] _.
Qed.

(** [n] calls of [spawn] in a row, in full: the new tasks stand before
    their try block, the others, [mut] and the waiters are as before. *)
Lemma exec_spawns_running c a n st z :
  task_count st = wrap_int z ->
  exists st',
    exec st (spawns c a (length (tasks st)) n) = Some st' /\
    task_count st' = wrap_int (z + Z.of_nat n) /\
    length (tasks st') = (length (tasks st) + n)%nat /\
    mut st' = mut st /\ waiters st' = waiters st /\
    (forall i t, tasks st !! i = Some t -> tasks st' !! i = Some t) /\
    (forall i, (length (tasks st) <= i < length (tasks st) + n)%nat ->
       exists t, tasks st' !! i = Some t /\ t_pc t = Running /\
                 t_func t = c /\ t_args t = a).
Proof.
  revert st z. induction n as [|n IH]; intros st z Hz.
  - exists st. rewrite Z.add_0_r, Nat.add_0_r. split_and!; try done.
    intros i Hi. lia.
  - cbn [spawns exec]. cbn [step].
    set (t0 := {| t_promise := length (shared st); t_func := c; t_args := a;
                  t_pc := Registered |}).
    assert (tasks (spawn_call c a st) !! length (tasks st) = Some t0) as Ht
      by (simpl; by apply list_lookup_middle).
    rewrite (proj2 (task_at_Some _ _ Registered t0) (conj Ht eq_refl)).
    set (st1 := move _ t0 Running _).
    assert (length (tasks st1) = S (length (tasks st))) as Hlen.
    { simpl. rewrite length_insert, length_app. simpl. lia. }
    assert (tasks st1 !! length (tasks st) = Some (at_pc Running t0)) as Hnew.
    { simpl. apply list_lookup_insert_eq. rewrite length_app. simpl. lia. }
    assert (forall i t, tasks st !! i = Some t -> tasks st1 !! i = Some t)
      as Hold.
    { intros i t Hi. simpl. pose proof (lookup_lt_Some _ _ _ Hi).
      rewrite list_lookup_insert_ne by lia. by apply lookup_app_l_Some. }
    destruct (IH st1 (z + 1))
      as (st' & Hex & Hc & Hl & Hm & Hw & Hkeep & Hrun).
    { simpl. by rewrite Hz, wrap_int_succ. }
    rewrite Hlen in Hex, Hl, Hrun. exists st'. split; [done|].
    split_and!; try done; try lia.
    + rewrite Hc. f_equal. lia.
    + intros i t Hi. by apply Hkeep, Hold.
    + intros i Hi. destruct (decide (i = length (tasks st))) as [->|Hne].
      * exists (at_pc Running t0). split; [|done]. by apply Hkeep.
      * apply Hrun. lia.
Qed.

(** The workers of [n] tasks in a row that stand before their try block,
    [mut] being free: each runs to its end. *)
Lemma exec_workers n k st z :
  invariant st -> mut st = None -> task_count st = wrap_int z ->
  (forall i, (k <= i < k + n)%nat ->
     exists t, tasks st !! i = Some t /\ t_pc t = Running /\
               comes_back (t_func t) (t_args t)) ->
  exists st',
    exec st (workers k n) = Some st' /\
    task_count st' = wrap_int (z - Z.of_nat n) /\
    mut st' = None /\
    waiters st' = (if n is O then waiters st else wake <$> waiters st) /\
    length (tasks st') = length (tasks st) /\
    (forall i, (i < k \/ k + n <= i)%nat -> tasks st' !! i = tasks st !! i) /\
    (forall i, (k <= i < k + n)%nat ->
       exists t, tasks st' !! i = Some t /\ t_pc t = Exited).
Proof.
  revert k st z. induction n as [|n IH]; intros k st z Hinv Hm Hz Hrun.
  - exists st. rewrite Z.sub_0_r. split_and!; try done. intros i Hi. lia.
  - destruct (Hrun k ltac:(lia)) as (t & Hk & Hpc & Hback).
    apply worker_try_comes_back in Hback as [s Hs].
    destruct (exec_worker st k t s Hinv Hk Hpc Hm Hs)
      as (st1 & Hex1 & Hc1 & Hw1 & Ht1 & _ & Hm1).
    assert (invariant st1) as Hinv1 by by eapply exec_invariant.
    destruct (IH (S k) st1 (z - 1) Hinv1 Hm1)
      as (st' & Hex & Hc & Hm' & Hw & Hlen & Hout & Hin).
    { by rewrite Hc1, Hz, wrap_int_pred. }
    { intros i Hi. rewrite Ht1, list_lookup_insert_ne by lia.
      apply Hrun. lia. }
    exists st'. cbn [workers]. rewrite exec_app, Hex1. split; [done|].
    split_and!; try done.
    + rewrite Hc. f_equal. lia.
    + rewrite Hw, Hw1. destruct n; [done | apply wake_wake].
    + by rewrite Hlen, Ht1, length_insert.
    + intros i Hi. rewrite Hout by lia.
      rewrite Ht1. apply list_lookup_insert_ne. lia.
    + intros i Hi. destruct (decide (i = k)) as [->|Hne].
      * exists (at_pc Exited t). split; [|done].
        rewrite Hout by lia. rewrite Ht1.
        apply list_lookup_insert_eq. by eapply lookup_lt_Some.
      * apply Hin. lia.
Qed.

(** A call of [wait_all] by a new thread that finds [mut] free and the
    counter at zero comes back at its first test. *)
Lemma exec_wait_all st :
  mut st = None -> task_count st = 0 ->
  exists st',
    exec st (wait_all (length (waiters st))) = Some st' /\
    waiters st' = waiters st ++ [Done (Returns tt)] /\
    task_count st' = 0 /\ tasks st' = tasks st /\ shared st' = shared st /\
    mut st' = None.
Proof.
  intros Hm Hc. unfold wait_all. cbn [exec step]. simpl.
  rewrite list_lookup_middle by done. rewrite Hm.
  cbn [step waiters set_waiters set_mut].
  rewrite list_lookup_insert_eq by (rewrite length_app; simpl; lia).
  simpl. rewrite Hc. simpl. eexists. split; [done|]. simpl.
  split_and!; try done.
  rewrite list_insert_insert_eq.
  replace (length (waiters st)) with (length (waiters st) + 0)%nat by lia.
  by rewrite insert_app_r.
Qed.

(** [n] tasks whose callable comes back are spawned ([n < 2 ^ 31]), their
    workers run, and a thread calls [wait_all]: the call comes back, the
    counter is zero, and every worker has returned. *)
Theorem tm_drain c a n :
  comes_back c a -> Z.of_nat n < 2 ^ 31 ->
  exists st,
    exec init (spawns c a 0 n ++ workers 0 n ++ wait_all 0) = Some st /\
    task_count st = 0 /\
    waiters st = [Done (Returns tt)] /\
    length (tasks st) = n /\
    (forall i, (i < n)%nat ->
       exists t, tasks st !! i = Some t /\ t_pc t = Exited /\
                 t_func t = c /\ t_args t = a).
Proof.
  intros Hback Hn.
  destruct (exec_spawns_running c a n init 0 eq_refl)
    as (st1 & Hex1 & Hc1 & Hl1 & Hm1 & Hw1 & _ & Hrun1).
  simpl in Hex1, Hl1, Hrun1.
  assert (invariant st1) as Hinv1
    by (eapply exec_invariant; [apply init_invariant | done]).
  destruct (exec_workers n 0 st1 (Z.of_nat n) Hinv1 Hm1)
    as (st2 & Hex2 & Hc2 & Hm2 & Hw2 & Hl2 & _ & Hin2).
  { by rewrite Hc1. }
  { intros i Hi. destruct (Hrun1 i ltac:(lia)) as (t & Ht & Hpc & Hf & Ha).
    exists t. by rewrite Hf, Ha. }
  assert (waiters st2 = []) as Hw2'.
  { rewrite Hw2, Hw1. by destruct n. }
  assert (task_count st2 = 0) as Hc2'.
  { rewrite Hc2, Z.sub_diag. done. }
  destruct (exec_wait_all st2 Hm2 Hc2')
    as (st3 & Hex3 & Hw3 & Hc3 & Ht3 & _).
  rewrite Hw2' in Hex3, Hw3. simpl in Hex3, Hw3.
  exists st3. rewrite exec_app, Hex1. cbn beta iota.
  rewrite exec_app, Hex2. cbn beta iota. split; [done|].
  split_and!; try done.
  - rewrite Ht3, Hl2. done.
  - intros i Hi. rewrite Ht3.
    destruct (Hrun1 i ltac:(lia)) as (t & Ht & Hpc & Hf & Ha).
    destruct (exec_task_kept _ _ _ _ _ Hex2 Ht) as [q Hq].
    destruct (Hin2 i ltac:(lia)) as (t' & Ht' & Hpc').
    exists t'. rewrite Hq in Ht'. simplify_eq. done.
Qed.

End TaskManagerFacts.

(** ** TaskManager: a call of [spawn] with its argument pack *)

Section TaskManagerPacks.
Import Future TaskManager.
Context {V R : Type}.
Implicit Types (st : state (list V) R) (tr : list (label (list V) R)).

(** C5.  A call [spawn(f, args...)] whose callable would return [v] when
    applied to [args].  With one argument or more the call does not
    compile, whether or not a thread could be started: the pack is handed on
    as [std::forward(args)...].  With the empty pack, and the thread
    started, [spawn] returns the future of a fresh shared state with the
    counter one up; some execution from there ends with [get()] returning
    [v]; and in every state any execution reaches from there the task
    carries [f] and the empty pack, its thread is running or has run, the
    shared state is pending until the worker's try block has run and holds
    [v] from then on, so that [get()] suspends before and returns [v]
    after; the try block is enabled as soon as the worker stands before it,
    and writes [v]; and once written the value stays in every later
    state. *)
Theorem tm_spawn_records_value tr0 st0 (f : list V -> behaviour R) args v :
  exec init tr0 = Some st0 ->
  f args = Halts (Returns v) ->
  let i := length (tasks st0) in
  let p := length (shared st0) in
  (args <> [] -> forall ok, spawn_pack (Fn f) args ok st0 = None) /\
  (args = [] ->
   exists st1,
     spawn_pack (Fn f) args true st0 = Some (st1, Returns (future_of p)) /\
     task_count st1 = wrap_int (task_count st0 + 1) /\
     (exists tr st,
        exec st1 tr = Some st /\
        get (shared st) (future_of p) = (GotValue v, no_future)) /\
     forall tr st,
       exec st1 tr = Some st ->
       exists q,
         tasks st !! i =
           Some {| t_promise := p; t_func := Fn f; t_args := [];
                   t_pc := q |} /\
         launched q = true /\
         shared st !! p = Some (if recorded q then Resolved v else Pending) /\
         get (shared st) (future_of p) =
           (if recorded q then (GotValue v, no_future)
            else (Blocked, future_of p)) /\
         (q = Running ->
            exists st', step st (Run i) = Some st' /\
                        shared st' !! p = Some (Resolved v)) /\
         (recorded q = true ->
            forall tr' st', exec st tr' = Some st' ->
              shared st' !! p = Some (Resolved v) /\
              get (shared st') (future_of p) = (GotValue v, no_future))).
Proof.
  intros H0 Hf i p. split; [intros Hne ok; by destruct args|].
  intros ->. unfold spawn_pack.
  destruct (spawn_launched (Fn f) [] st0) as (Hstep & Hsp & Ht1).
  fold i p in Hstep, Hsp, Ht1.
  set (t0 := {| t_promise := p; t_func := Fn f; t_args := [];
                t_pc := Registered |}) in *.
  set (st1 := move i t0 Running (spawn_call (Fn f) [] st0)) in *.
  exists st1. split; [done|]. split; [done|].
  assert (invariant st1) as Hinv1.
  { eapply step_invariant; [|exact Hstep].
    eapply (step_invariant st0 (SpawnCall (Fn f) [])); [|done].
    eapply exec_invariant; [apply init_invariant | done]. }
  split.
  - destruct (worker_decrements st1 i _ Hinv1 Ht1 eq_refl)
      as (tr1 & st1' & st2 & Hex1 & Hex2 & _ & _ & Hsh & _).
    { simpl. by rewrite Hf. }
    exists (tr1 ++ worker i), st2. split; [by rewrite exec_app, Hex1|].
    simpl in Hsh. rewrite (worker_try_returns _ _ _ Hf) in Hsh.
    by apply (get_terminal _ _ _ Hsh).
  - intros tr st Hex.
    assert (exec (spawn_call (Fn f) [] st0) (Launch i true :: tr) = Some st)
      as Hex' by (cbn [exec]; by rewrite Hstep).
    destruct (spawned_task _ _ _ _ _ _ H0 Hex') as (Hinv & q & Hq & Hslot).
    fold i p in Hq, Hslot.
    destruct (exec_launched _ _ _ _ _ Hex Ht1 eq_refl) as (q' & Hq' & Hl).
    rewrite Hq in Hq'. injection Hq' as <-.
    unfold expected_slot in Hslot. simpl in Hslot.
    rewrite (worker_try_returns _ _ _ Hf) in Hslot. simpl in Hslot.
    exists q. split; [done|]. split; [done|].
    assert (shared st !! p = Some (if recorded q then Resolved v else Pending))
      as Hp by (rewrite Hslot; by destruct q).
    split_and!; try done.
    + destruct (recorded q) eqn:Hr;
        first [ by apply get_pending | by apply (get_terminal _ _ _ Hp) ].
    + intros ->. simpl in Hp. cbn [step].
      rewrite (proj2 (task_at_Some st i Running _) (conj Hq eq_refl)). simpl.
      rewrite Hp, (worker_try_returns _ _ _ Hf).
      eexists. split; [done|]. simpl.
      apply list_lookup_insert_eq. by eapply lookup_lt_Some.
    + intros Hq' tr' st' Hex''. rewrite Hq' in Hp.
      assert (shared st' !! p = Some (Resolved v)) as Hp'
        by (eapply exec_stable; eauto).
      split; [done|]. by apply (get_terminal _ _ _ Hp').
Qed.

End TaskManagerPacks.

(** ** TaskManager: the scenarios *)

Section TaskManagerScenarios.
Import Future TaskManager.

(** C6.  A task whose callable returns [void] is spawned, and its worker
    runs up to the point where it has given [mut] back; a caller of
    [wait_all] then finds the counter at zero and comes back, while the
    shared state of the task's future is still pending: [get()] would
    suspend.  (The state becomes ready, with [broken_promise], when the
    worker destroys its promise afterwards.) *)
Theorem tm_wait_all_returns_before_result :
  exists st st',
    exec init
      ([SpawnCall nothing tt; Launch 0 true;
        Run 0; Lock 0; Decr 0; Notify 0; Unlock 0] ++ wait_all 0) = Some st /\
    waiters st !! 0%nat = Some (Done (Returns tt)) /\
    task_count st = 0 /\
    shared st !! 0%nat = Some Pending /\
    get (shared st) (future_of 0) = (Blocked, future_of 0) /\
    step st (Exit 0) = Some st' /\
    shared st' !! 0%nat = Some (Failed (future_error broken_promise)).
Proof. do 2 eexists. split_and!; vm_compute; reflexivity. Qed.

(** Scenario A: a task computing [2 + 2] is spawned, with no argument, and
    its worker runs; [get()] returns [4].  The call [spawn(add_up, 2, 2)]
    does not compile. *)
Lemma tm_scenario_A :
  spawn_pack add_up [2; 2] true init = None /\
  exists st1 st,
    spawn_pack four [] true init = Some (st1, Returns (future_of 0)) /\
    exec st1 (worker 0) = Some st /\
    get (shared st) (future_of 0) = (GotValue 4, no_future).
Proof.
  split.
  - refine (proj1 (tm_spawn_records_value (V := Z) (R := Z) [] init
                     (fun args => Halts (Returns (foldr Z.add 0 args)))
                     [2; 2] 4 eq_refl eq_refl) _ true).
    discriminate.
  - destruct (tm_spawn_records_value (V := Z) (R := Z) [] init
                (fun _ => Halts (Returns (2 + 2))) [] 4 eq_refl eq_refl)
      as (_ & Hrun).
    destruct (Hrun eq_refl) as (st1 & Hsp & _ & _ & Hall).
    exists st1.
    destruct (exec st1 (worker 0)) as [st|] eqn:Hex.
    + exists st. split; [exact Hsp|]. split; [reflexivity|].
      destruct (Hall _ _ Hex) as (q & Hq & _ & _ & Hget & _).
      vm_compute in Hsp. injection Hsp as <-.
      vm_compute in Hex. injection Hex as <-.
      vm_compute in Hq. injection Hq as <-.
      exact Hget.
    + vm_compute in Hsp. injection Hsp as <-.
      vm_compute in Hex. discriminate.
Defined.


(** A task whose callable returns [void] is spawned and its worker runs to
    its end; [get()] throws [future_error(broken_promise)]. *)
Lemma tm_void_scenario :
  exists st,
    exec (spawn_call nothing tt init) (Launch 0 true :: worker 0) = Some st /\
    shared st !! 0%nat = Some (Failed (future_error broken_promise)) /\
    get (shared st) (future_of 0) =
      (Rethrown (future_error broken_promise), no_future).
Proof.
  eexists. split; [vm_compute; reflexivity|].
  destruct (tm_void_task_broken_promise (A := unit) (R := Z)
              [] init (fun _ => Halts (Returns tt)) tt
              (Launch 0 true :: worker 0) _ eq_refl eq_refl eq_refl)
    as (q & Hq & Hslot & _ & Hget).
  vm_compute in Hq. injection Hq as <-.
  split; [exact Hslot | exact Hget].
Defined.

(** One call of [spawn] whose thread cannot be started: nothing is
    committed and nothing has finished, and the counter is at one. *)
Lemma tm_count_scenario :
  exists st : state unit Z,
    exec init [SpawnCall two_plus_two tt; Launch 0 false] = Some st /\
    committed (tasks st) = 0%nat /\
    completed (tasks st) = 0%nat /\
    task_count st = 1.
Proof.
  eexists. split; [vm_compute; reflexivity|].
  split; [reflexivity|]. split; [reflexivity|].
  exact (proj1 (tm_count_invariant (A := unit) (R := Z)
                  [SpawnCall two_plus_two tt; Launch 0 false] _
                  ltac:(vm_compute; reflexivity)
                  ltac:(vm_compute; reflexivity))).
Defined.

(** The counter is an [int]: after [2 ^ 31] calls of [spawn] whose tasks
    have not finished it has wrapped around to [- 2 ^ 31]. *)
Lemma tm_count_wraps_negative :
  exists st : state unit Z,
    exec init (spawns two_plus_two tt 0 (Z.to_nat (2 ^ 31))) = Some st /\
    task_count st = - 2 ^ 31 /\
    task_count st < 0.
Proof.
  destruct (exec_spawns two_plus_two tt (Z.to_nat (2 ^ 31)) init 0 eq_refl)
    as (st & Hex & Hc & _).
  exists st. split; [exact Hex|].
  rewrite Z2Nat.id in Hc by lia.
  assert (task_count st = - 2 ^ 31) as -> by (rewrite Hc; reflexivity).
  split; [reflexivity | lia].
Qed.

(** C3, as stated, fails for the future [spawn] returns: the first [get()]
    returns [4] and leaves the future without a shared state; the second
    finds none. *)
Lemma tm_get_twice_differs :
  exists (st : state unit Z) f1,
    exec (spawn_call two_plus_two tt init) (Launch 0 true :: worker 0)
      = Some st /\
    get (shared st) (future_of 0) = (GotValue 4, f1) /\
    valid f1 = false /\
    get (shared st) f1 = (NoState, f1).
Proof. do 2 eexists. split_and!; vm_compute; reflexivity. Qed.

(** A worker inside its critical section: no caller of [wait_all] tests
    the predicate. *)
Lemma tm_mutual_exclusion_scenario :
  exists st : state unit Z,
    exec init [SpawnCall two_plus_two tt; Launch 0 true; Run 0; Lock 0;
               WaitAll] = Some st /\
    mut st = Some (ByWorker 0) /\
    (forall j, waiters st !! j = Some Holding -> False).
Proof.
  eexists. split; [vm_compute; reflexivity|]. split; [reflexivity|].
  intros j Hj.
  destruct (tm_mutual_exclusion (A := unit) (R := Z)
              [SpawnCall two_plus_two tt; Launch 0 true; Run 0; Lock 0;
               WaitAll] _ eq_refl) as (_ & Hexcl & _).
  exact (Hexcl 0%nat _ j eq_refl eq_refl Hj).
Defined.

(** One task spawned and run, then [wait_all]: it comes back with the
    counter at zero. *)
Lemma tm_wait_all_return_scenario :
  exists st st' : state unit Z,
    exec init (SpawnCall two_plus_two tt :: Launch 0 true :: worker 0
               ++ [WaitAll; WLock 0]) = Some st /\
    step st (WTest 0) = Some st' /\
    task_count st = 0 /\
    exists s, shared st' !! 0%nat = Some s /\ terminal s = true.
Proof.
  do 2 eexists. split; [vm_compute; reflexivity|].
  split; [vm_compute; reflexivity|].
  destruct (tm_wait_all_return_drained (A := unit) (R := Z)
              (SpawnCall two_plus_two tt :: Launch 0 true :: worker 0
               ++ [WaitAll; WLock 0]) _ 0 _ eq_refl eq_refl eq_refl
              ltac:(vm_compute; reflexivity)) as (Hc & Hall).
  split; [exact Hc|].
  destruct (Hall 0%nat _ eq_refl) as (_ & Hready).
  apply Hready. vm_compute. discriminate.
Defined.

(** A thread goes to sleep in [wait_all] while a task has not finished. *)
Lemma tm_no_lost_wakeup_scenario :
  exists st : state unit Z,
    exec init [SpawnCall two_plus_two tt; Launch 0 true; WaitAll; WLock 0;
               WTest 0] = Some st /\
    waiters st !! 0%nat = Some Sleeping /\
    ((0 < outstanding (tasks st))%nat \/ notification_pending st).
Proof.
  eexists. split; [vm_compute; reflexivity|]. split; [reflexivity|].
  exact (proj1 (tm_no_lost_wakeup (A := unit) (R := Z)
                  [SpawnCall two_plus_two tt; Launch 0 true; WaitAll;
                   WLock 0; WTest 0] _ 0 eq_refl eq_refl)).
Defined.

(** The result [4] of a finished task, after further steps of other
    threads. *)
Lemma tm_written_once_scenario :
  exists st st' : state unit Z,
    exec init (SpawnCall two_plus_two tt :: Launch 0 true :: worker 0)
      = Some st /\
    exec st [SpawnCall boom tt; Launch 1 true; Run 1; WaitAll] = Some st' /\
    shared st' !! 0%nat = Some (Resolved 4).
Proof.
  do 2 eexists. split; [vm_compute; reflexivity|].
  match goal with
  | |- exec ?s ?tr = Some _ /\ _ =>
      split; [vm_compute; reflexivity|];
      refine (proj1 (tm_result_written_once (A := unit) (R := Z) s tr _
                       0%nat (Resolved 4) _ _ eq_refl));
      vm_compute; reflexivity
  end.
Defined.

(** A failed launch, then a caller of [wait_all]: it goes to sleep. *)
Lemma tm_launch_failure_scenario :
  exists st1 st st' : state unit Z,
    spawn two_plus_two tt false init = Some (st1, Raises system_error) /\
    exec st1 [WaitAll; WLock 0] = Some st /\
    step st (WTest 0) = Some st' /\
    task_count st <> 0 /\ waiters st' !! 0%nat = Some Sleeping.
Proof.
  do 3 eexists. split; [vm_compute; reflexivity|].
  split; [vm_compute; reflexivity|]. split; [vm_compute; reflexivity|].
  exact (tm_launch_failure_blocks_wait_all (A := unit) (R := Z)
           [] init two_plus_two tt _ [WaitAll; WLock 0] _ 0 _
           eq_refl eq_refl eq_refl ltac:(vm_compute; reflexivity) eq_refl).
Defined.

(** Three tasks computing [2 + 2], drained. *)
Lemma tm_drain_scenario :
  exists st : state unit Z,
    exec init (spawns two_plus_two tt 0 3 ++ workers 0 3 ++ wait_all 0)
      = Some st /\
    task_count st = 0 /\
    waiters st = [Done (Returns tt)].
Proof.
  destruct (tm_drain (A := unit) (R := Z) two_plus_two tt 3
              ltac:(simpl; discriminate) ltac:(vm_compute; reflexivity))
    as (st & Hex & Hc & Hw & _).
  exists st. split; [exact Hex|]. split; [exact Hc | exact Hw].
Defined.

End TaskManagerScenarios.

(** ** Task<R>: shared handles *)

Section TaskFacts.
Import Future.
Context {V R : Type}.
Implicit Types (st : Task.state V R) (c : callable (list V) R) (s : slot R).
Implicit Types (ty : Task.result_type).

Lemma packaged_task_call_terminal c a s s' :
  terminal s = true -> Task.packaged_task_call c a s = Some s' -> s' = s.
Proof.
  intros Hs. unfold Task.packaged_task_call.
  destruct c as [f|f]; destruct (f a) as [[x|e]|]; intros ?; simplify_eq;
    by destruct s.
Qed.

Lemma task_step_stable st l st' p s :
  Task.step st l = Some st' ->
  Task.shared st !! p = Some s -> terminal s = true ->
  Task.shared st' !! p = Some s.
Proof.
  intros Hst Hp Hs. destruct l as [c [|x args] ok|i]; simpl in Hst.
  - destruct ok; simplify_eq/=; by apply lookup_app_l_Some.
  - done.
  - destruct (Task.units st !! i) as [u|]; [|done].
    destruct (Task.u_pc u); [|done].
    destruct (Task.shared st !! Task.u_state u) as [s0|] eqn:Hu; [|done].
    destruct (Task.packaged_task_call _ _ s0) as [s1|] eqn:Hc; [|done].
    simplify_eq. simpl.
    destruct (decide (Task.u_state u = p)) as [<-|Hne].
    + simplify_eq. rewrite (packaged_task_call_terminal _ _ _ _ Hs Hc).
      apply list_lookup_insert_eq. by eapply lookup_lt_Some.
    + by rewrite list_lookup_insert_ne.
Qed.

Lemma task_exec_stable st tr st' p s :
  Task.exec st tr = Some st' ->
  Task.shared st !! p = Some s -> terminal s = true ->
  Task.shared st' !! p = Some s.
Proof.
  revert st. induction tr as [|l tr IH]; simpl; intros st Hex Hp Hs.
  - by simplify_eq.
  - destruct (Task.step st l) as [st1|] eqn:Hst; [|done].
    eapply IH; [done| |done]. by eapply task_step_stable.
Qed.

(** C3, amended.  A [Task<R>] whose [get()] has come back with an outcome
    (nothing for [void], what the reference refers to for a reference type,
    or a rethrown exception; the call compiles, so [R] is no object type)
    is left as it was, and every later [get()] on it, in whatever state the
    tasks have reached by then, comes back with the same outcome.  The
    future [spawn] returns gives its outcome once: after a [get()] that has
    come back with an outcome [valid()] is false, and a further [get()]
    finds no shared state. *)
Theorem task_get_idempotent ty st (t t1 : Task.Task) (r : get_result R) :
  Task.get ty (Task.shared st) t = Some (r, t1) ->
  r <> Blocked -> r <> NoState ->
  ty <> Task.object_type /\
  t1 = t /\
  (forall tr st',
     Task.exec st tr = Some st' ->
     Task.get ty (Task.shared st') t1 = Some (r, t1)) /\
  (forall (h h' : heap R) (f f1 : future) (r' : get_result R),
     get h f = (r', f1) -> r' <> Blocked -> r' <> NoState ->
     valid f1 = false /\ get h' f1 = (NoState, f1)).
Proof.
  intros Hget Hb Hn.
  assert (ty <> Task.object_type) as Hty by (intros ->; done).
  assert (forall (h : heap R) u,
            Task.get ty h u = Task.get Task.void_type h u) as Hdef
    by (intros h u; by destruct ty).
  rewrite Hdef in Hget. unfold Task.get, shared_get in Hget.
  destruct t as [[[p|]]]; simpl in *; [|by simplify_eq].
  destruct (Task.shared st !! p) as [s|] eqn:Hp; [|by simplify_eq].
  simplify_eq. split; [done|]. split; [done|]. split.
  - intros tr st' Hex. rewrite Hdef. unfold Task.get, shared_get. simpl.
    rewrite (task_exec_stable _ _ _ _ _ Hex Hp); [done|]. by destruct s.
  - intros h h' f f1 r' Hg Hb' Hn'. unfold get in Hg.
    destruct (fstate f) as [p'|]; [|by simplify_eq].
    destruct (h !! p') as [[]|]; by simplify_eq.
Qed.

(** C4.  [Task::wait_until] hands its time point to
    [shared_future::wait_for], which takes a duration: the call has no
    viable overload, so [wait_until] yields nothing for any handle, time and
    deadline, where [wait_for], which hands a duration on, yields a status,
    and where [shared_future::wait_until], which the body does not call,
    would wait up to the deadline. *)
Theorem task_wait_until_ill_formed (ready_at : option Z) (now timeout_time : Z) :
  Task.wait_until ready_at now timeout_time = None /\
  Task.wait_for ready_at now (timeout_time - now) =
    Some (timed_wait ready_at now timeout_time) /\
  shared_wait_until ready_at now (time_point timeout_time) =
    Some (timed_wait ready_at now timeout_time).
Proof.
  split; [done|]. split; [|done].
  unfold Task.wait_for, shared_wait_for. do 2 f_equal. lia.
Qed.

(** *** What a handle shows of its unit of execution *)

Lemma packaged_task_call_pending c a s :
  Task.packaged_task_call c a Pending = Some s -> terminal s = true.
Proof.
  unfold Task.packaged_task_call.
  destruct c as [f|f]; destruct (f a) as [[x|e]|]; intros ?; by simplify_eq.
Qed.

Lemma packaged_task_call_comes_back c a :
  comes_back c a -> exists s, Task.packaged_task_call c a Pending = Some s.
Proof.
  unfold comes_back, Task.packaged_task_call.
  destruct c as [f|f]; destruct (f a) as [[x|e]|]; intros ?;
    try done; by eexists.
Qed.

Lemma task_init_invariant : Task.invariant (Task.init (V := V) (R := R)).
Proof. by split. Qed.

Lemma task_step_invariant st l st' :
  Task.invariant st -> Task.step st l = Some st' -> Task.invariant st'.
Proof.
  intros [Hb Hi Hs] Hst. destruct l as [c [|x args] [|]|i]; simpl in Hst;
    try done.
  - simplify_eq. split; simpl.
    + intros i u Hu. rewrite length_app. simpl.
      apply lookup_app_Some in Hu as [Hu|[_ Hu]].
      * pose proof (Hb _ _ Hu). lia.
      * apply list_lookup_singleton_Some in Hu as [_ <-]. simpl. lia.
    + intros i j ui uj Hui Huj Heq.
      apply lookup_app_Some in Hui as [Hui|[Hli Hui]];
        apply lookup_app_Some in Huj as [Huj|[Hlj Huj]].
      * by eapply Hi.
      * apply list_lookup_singleton_Some in Huj as [_ <-]. simpl in Heq.
        pose proof (Hb _ _ Hui). lia.
      * apply list_lookup_singleton_Some in Hui as [_ <-]. simpl in Heq.
        pose proof (Hb _ _ Huj). lia.
      * apply list_lookup_singleton_Some in Hui as [? _].
        apply list_lookup_singleton_Some in Huj as [? _]. lia.
    + intros i u Hu.
      apply lookup_app_Some in Hu as [Hu|[_ Hu]].
      * rewrite lookup_app_l by exact (Hb _ _ Hu). exact (Hs _ _ Hu).
      * apply list_lookup_singleton_Some in Hu as [_ <-]. simpl.
        by rewrite list_lookup_middle.
  - simplify_eq. split; simpl.
    + intros i u Hu. rewrite length_app. simpl.
      pose proof (Hb _ _ Hu). lia.
    + done.
    + intros i u Hu. rewrite lookup_app_l by exact (Hb _ _ Hu). exact (Hs _ _ Hu).
  - destruct (Task.units st !! i) as [u|] eqn:Hu; [|done].
    destruct (Task.u_pc u) eqn:Hpc; [|done].
    destruct (Task.shared st !! Task.u_state u) as [s0|] eqn:Hs0; [|done].
    destruct (Task.packaged_task_call _ _ s0) as [s1|] eqn:Hc; [|done].
    simplify_eq.
    assert (s0 = Pending) as ->.
    { pose proof (Hs _ _ Hu) as Hexp. unfold Task.expected_slot in Hexp.
      rewrite Hpc in Hexp. congruence. }
    pose proof (lookup_lt_Some _ _ _ Hu) as Hlt.
    pose proof (Hb _ _ Hu) as Hlu.
    split; simpl.
    + intros j uj Huj. rewrite length_insert.
      destruct (decide (j = i)) as [->|Hne].
      * rewrite list_lookup_insert_eq in Huj by done. by simplify_eq.
      * rewrite list_lookup_insert_ne in Huj by done. by eapply Hb.
    + intros j k uj uk Huj Huk Heq.
      destruct (decide (j = i)) as [->|Hj]; destruct (decide (k = i)) as [->|Hk];
        try done.
      * rewrite list_lookup_insert_eq in Huj by done.
        rewrite list_lookup_insert_ne in Huk by done. simplify_eq. simpl in Heq.
        symmetry. by eapply Hi.
      * rewrite list_lookup_insert_ne in Huj by done.
        rewrite list_lookup_insert_eq in Huk by done. simplify_eq. simpl in Heq.
        by eapply Hi.
      * rewrite list_lookup_insert_ne in Huj by done.
        rewrite list_lookup_insert_ne in Huk by done. by eapply Hi.
    + intros j uj Huj.
      destruct (decide (j = i)) as [->|Hne].
      * rewrite list_lookup_insert_eq in Huj by done. simplify_eq. simpl.
        by rewrite list_lookup_insert_eq.
      * rewrite list_lookup_insert_ne in Huj by done.
        rewrite list_lookup_insert_ne; [exact (Hs _ _ Huj)|].
        intros Heq. apply Hne. symmetry. by eapply Hi.
Qed.

Lemma task_exec_invariant st tr st' :
  Task.invariant st -> Task.exec st tr = Some st' -> Task.invariant st'.
Proof.
  revert st. induction tr as [|l tr IH]; simpl; intros st Hinv Hex.
  - by simplify_eq.
  - destruct (Task.step st l) as [st1|] eqn:Hst; [|done].
    eapply IH; [|done]. by eapply task_step_invariant.
Qed.

Lemma task_step_unit_kept st l st' i u :
  Task.step st l = Some st' -> Task.units st !! i = Some u ->
  exists u', Task.units st' !! i = Some u' /\
    Task.u_state u' = Task.u_state u /\
    Task.u_func u' = Task.u_func u /\ Task.u_args u' = Task.u_args u.
Proof.
  intros Hst Hu. destruct l as [c [|x args] [|]|k]; simpl in Hst; try done.
  - simplify_eq. exists u. simpl. split; [by apply lookup_app_l_Some|done].
  - simplify_eq. by exists u.
  - destruct (Task.units st !! k) as [uk|] eqn:Huk; [|done].
    destruct (Task.u_pc uk); [|done].
    destruct (Task.shared st !! Task.u_state uk) as [s0|]; [|done].
    destruct (Task.packaged_task_call _ _ s0) as [s1|]; [|done].
    simplify_eq. simpl. destruct (decide (i = k)) as [->|Hne].
    + eexists. rewrite list_lookup_insert_eq by by eapply lookup_lt_Some.
      by simplify_eq.
    + exists u. by rewrite list_lookup_insert_ne.
Qed.

Lemma task_exec_unit_kept st tr st' i u :
  Task.exec st tr = Some st' -> Task.units st !! i = Some u ->
  exists u', Task.units st' !! i = Some u' /\
    Task.u_state u' = Task.u_state u /\
    Task.u_func u' = Task.u_func u /\ Task.u_args u' = Task.u_args u.
Proof.
  revert st u. induction tr as [|l tr IH]; simpl; intros st u Hex Hu.
  - simplify_eq. by exists u.
  - destruct (Task.step st l) as [st1|] eqn:Hst; [|done].
    destruct (task_step_unit_kept _ _ _ _ _ Hst Hu) as (u1 & Hu1 & E1 & E2 & E3).
    destruct (IH _ _ Hex Hu1) as (u' & Hu' & E1' & E2' & E3').
    exists u'. split; [done|]. by rewrite E1', E2', E3'.
Qed.

(** A call [run(f, args...)] with one argument or more does not compile.
    The [Task<R>] that [run(f)] returns (the thread having been started),
    [R] being the result type of [f], is valid and shows, at any later
    time, what its unit of execution has done.  While the [packaged_task]
    has not been called, [wait()] suspends its caller, and the call of the
    [packaged_task] is enabled when [f()] comes back; once it has been
    called, the shared state is ready and [wait()] returns.  A call of
    [get()] does not compile when [R] is an object type; when [R] is
    [void] or a reference type it suspends its caller before the
    [packaged_task] has been called, and afterwards gives what the call of
    [f()] stored, nothing for [void], what was returned, or the exception
    thrown, and leaves the handle as it was. *)
Theorem task_run_result tr0 st0 c (reference : bool) st1 (t : Task.Task) tr st :
  Task.exec Task.init tr0 = Some st0 ->
  Task.run c [] true st0 = Some (st1, Returns t) ->
  Task.exec st1 tr = Some st ->
  let ty := Task.result_of reference c in
  (forall x args ok, Task.run c (x :: args) ok st0 = None) /\
  Task.valid t = true /\
  (ty = Task.object_type -> Task.get ty (Task.shared st) t = None) /\
  exists u,
    Task.units st !! length (Task.units st0) = Some u /\
    Task.u_func u = c /\ Task.u_args u = [] /\
    match Task.u_pc u with
    | Task.Started =>
        (ty <> Task.object_type ->
         Task.get ty (Task.shared st) t = Some (Blocked, t)) /\
        Task.wait (Task.shared st) t = WaitBlocked /\
        (comes_back c [] ->
         exists st',
           Task.step st (Task.Execute (length (Task.units st0))) = Some st')
    | Task.Finished =>
        exists s,
          Task.packaged_task_call c [] Pending = Some s /\
          terminal s = true /\
          (ty <> Task.object_type ->
           Task.get ty (Task.shared st) t = Some (read s, t)) /\
          Task.wait (Task.shared st) t = WaitReturned
    end.
Proof.
  intros Hex0 Hrun Hex ty. unfold Task.run, Task.construct in Hrun.
  simplify_eq. split; [done|]. split; [done|].
  split; [by intros ->|].
  set (st1 := {| Task.shared := _; Task.units := _ |}) in Hex.
  assert (Task.invariant st) as [Hb Hi Hs].
  { eapply task_exec_invariant; [|exact Hex].
    eapply (task_step_invariant st0 (Task.Construct c [] true)); [|done].
    by eapply task_exec_invariant; [apply task_init_invariant|]. }
  destruct (task_exec_unit_kept st1 tr st (length (Task.units st0))
              {| Task.u_state := length (Task.shared st0); Task.u_func := c;
                 Task.u_args := []; Task.u_pc := Task.Started |} Hex)
    as (u & Hu & Est & Ef & Ea).
  { subst st1. simpl. by rewrite list_lookup_middle. }
  simpl in Est, Ef, Ea. exists u. split; [done|]. split; [done|].
  split; [done|].
  pose proof (Hs _ _ Hu) as Hslot. pose proof (Hb _ _ Hu) as Hlt.
  unfold Task.expected_slot in Hslot. rewrite Est, Ef, Ea in Hslot.
  assert (forall (h : heap R) u0, ty <> Task.object_type ->
            Task.get ty h u0 = Task.get Task.void_type h u0) as Hdef
    by (intros h u0 Hty; by destruct ty).
  unfold Task.wait, shared_wait. simpl.
  destruct (Task.u_pc u) eqn:Hpc.
  - rewrite Hslot. split.
    { intros Hty. rewrite Hdef by done. unfold Task.get, shared_get. simpl.
      by rewrite Hslot. }
    split; [done|].
    intros Hback. simpl. rewrite Hu, Hpc, Est, Hslot, Ef, Ea.
    destruct (packaged_task_call_comes_back c [] Hback) as (s & ->).
    by eexists.
  - destruct (Task.shared st !! length (Task.shared st0)) as [s|] eqn:Hl.
    + exists s. split; [done|].
      pose proof (packaged_task_call_pending c [] s (eq_sym Hslot)) as Hterm.
      split; [done|]. split.
      { intros Hty. rewrite Hdef by done. unfold Task.get, shared_get.
        simpl. by rewrite Hl. }
      by destruct s.
    + apply lookup_ge_None in Hl. rewrite Est in Hlt. lia.
Qed.

End TaskFacts.

(** A [Task<void>] whose callable raises an error with message ["boom"],
    its unit run: [get()] rethrows that error, and does so again. *)
Lemma task_get_twice :
  exists (st1 st : Task.state Z Z) t e,
    Task.run boom_void [] true Task.init = Some (st1, Returns t) /\
    Task.exec st1 [Task.Execute 0] = Some st /\
    what e = Some "boom"%string /\
    Task.get Task.void_type (Task.shared st) t
      = Some (Future.Rethrown e, t) /\
    Task.get Task.void_type (Task.shared st) t
      ≫= (fun '(_, t') => Task.get Task.void_type (Task.shared st) t')
      = Some (Future.Rethrown e, t).
Proof.
  do 3 eexists. exists (runtime_error "boom").
  split; [reflexivity|]. split; [reflexivity|]. split; [reflexivity|].
  split; [reflexivity|].
  destruct (task_get_idempotent (V := Z) (R := Z) Task.void_type
              {| Task.shared := [Future.Failed (runtime_error "boom")];
                 Task.units := [{| Task.u_state := 0%nat;
                                   Task.u_func := boom_void;
                                   Task.u_args := [];
                                   Task.u_pc := Task.Finished |}] |}
              {| Task.future := {| Future.sstate := Some 0%nat |} |}
              _ (Future.Rethrown (runtime_error "boom"))
              eq_refl ltac:(done) ltac:(done))
    as (_ & _ & Hlater & _).
  exact (Hlater [] _ eq_refl).
Defined.

(** A [Task<void>] whose callable returns, its unit run: the handle is
    valid, [wait()] returns and [get()] returns; and [run] with an argument
    does not compile. *)
Lemma task_run_void :
  Task.run nothing_void [7] true Task.init = None /\
  exists (st1 st : Task.state Z Z) t,
    Task.run nothing_void [] true Task.init = Some (st1, Returns t) /\
    Task.exec st1 [Task.Execute 0] = Some st /\
    Task.valid t = true /\
    Task.wait (Task.shared st) t = Future.WaitReturned /\
    Task.get Task.void_type (Task.shared st) t = Some (Future.GotVoid, t).
Proof.
  destruct (task_run_result (V := Z) (R := Z) [] Task.init nothing_void
              false _ _ [Task.Execute 0] _ eq_refl eq_refl eq_refl)
    as (Hpack & Hv & _ & u & Hu & _ & _ & Hpc).
  split; [exact (Hpack 7 [] true)|].
  do 3 eexists. split; [reflexivity|]. split; [reflexivity|].
  split; [exact Hv|].
  vm_compute in Hu. injection Hu as <-. cbn [Task.u_pc] in Hpc.
  destruct Hpc as (s & Hs & _ & Hget & Hwait).
  vm_compute in Hs. injection Hs as <-.
  split; [exact Hwait|]. apply Hget. discriminate.
Defined.

(** ** Array<T, N>: element access *)

Section ArrayFacts.
Import Array.
Context {T : Type} {N : nat}.
Implicit Types (a : Array T N) (i : nat).

Lemma elems_lookup a i : (i < N)%nat -> is_Some (elems a !! i).
Proof. intros Hi. apply lookup_lt_is_Some. by rewrite elems_size. Qed.

(** C10.  [at(i)] with [i < N] returns a reference to element [i], which
    exists; with [i >= N] it throws [std::out_of_range]; either way the
    array is as it was.  [operator[]] goes to [elems[index]] directly: it
    never throws, and with [index >= N] nothing is defined. *)
Theorem array_at_checked a i :
  ((i < N)%nat ->
     at_ i a = (Ok (Elem i), a) /\
     exists x, load a (Elem i) = Some x /\ elems a !! i = Some x) /\
  ((N <= i)%nat ->
     at_ i a = (Throw (out_of_range "Array<>: index out of range"), a)) /\
  snd (at_ i a) = a /\
  operator_index i a = (subscript (N := N) i, a) /\
  (forall e, fst (operator_index i a) <> Throw e) /\
  ((i < N)%nat -> operator_index i a = (Ok (Elem i), a)) /\
  ((N <= i)%nat -> fst (operator_index i a) = Undefined).
Proof.
  unfold at_, operator_index, boundscheck, subscript. split_and!.
  - intros Hi. destruct (elems_lookup a i Hi) as [x Hx].
    rewrite (proj2 (Nat.leb_gt N i)) by lia.
    rewrite (proj2 (Nat.ltb_lt i N)) by lia. eauto.
  - intros Hi. by rewrite (proj2 (Nat.leb_le N i)) by lia.
  - by destruct (N <=? i)%nat.
  - done.
  - intros e. simpl. by destruct (i <? N)%nat.
  - intros Hi. by rewrite (proj2 (Nat.ltb_lt i N)) by lia.
  - intros Hi. simpl. by rewrite (proj2 (Nat.ltb_ge i N)) by lia.
Qed.

End ArrayFacts.

(** ** Array<T, N>: the other members and the comparison operators *)

Section ArrayOperations.
Import Array.
Context {T : Type} {N : nat}.
Implicit Types (a b c : Array T N) (i : nat) (l : list T).

Lemma fill_n_lookup l first count value i :
  fill_n l first count value !! i =
  if decide ((first <= i < first + count)%nat /\ (i < length l)%nat)
  then Some value else l !! i.
Proof.
  revert l first. induction count as [|count IH]; intros l first; simpl.
  - rewrite decide_False by lia. done.
  - rewrite IH, length_insert.
    destruct (decide (i = first)) as [->|Hne].
    + rewrite decide_False by lia.
      case_decide as H.
      * apply list_lookup_insert_eq. lia.
      * rewrite list_insert_ge by lia. done.
    + rewrite list_lookup_insert_ne by done.
      repeat case_decide; try done; lia.
Qed.

(** [fill(value)] leaves [value] in each of the [N] elements, so that
    [at(i)] with [i < N] then refers to an element holding [value]. *)
Theorem array_fill_all (value : T) a i :
  elems (fill value a) = replicate N value /\
  ((i < N)%nat ->
     at_ i (fill value a) = (Ok (Elem i), fill value a) /\
     load (fill value a) (Elem i) = Some value).
Proof.
  assert (elems (fill value a) = replicate N value) as Hfill.
  { apply list_eq. intros k. simpl. rewrite fill_n_lookup, elems_size.
    case_decide as H.
    - symmetry. apply lookup_replicate_2. lia.
    - rewrite lookup_ge_None_2 by (rewrite elems_size; lia).
      symmetry. apply lookup_ge_None_2. rewrite length_replicate. lia. }
  split; [done|]. intros Hi. split.
  - unfold at_, boundscheck, subscript.
    rewrite (proj2 (Nat.leb_gt N i)) by lia.
    by rewrite (proj2 (Nat.ltb_lt i N)) by lia.
  - unfold load. rewrite Hfill. by apply lookup_replicate_2.
Qed.

(** [front()] and [back()] of an array with [N > 0] elements refer to its
    first and its last element, which exist; with [N = 0] both go outside
    [elems] ([back()] at index [N - 1], which wraps around). *)
Theorem array_front_back a :
  ((0 < N)%nat -> Z.of_nat N < 2 ^ 64 ->
     front a = (Ok (Elem 0), a) /\
     back a = (Ok (Elem (N - 1)), a) /\
     is_Some (load a (Elem 0)) /\ is_Some (load a (Elem (N - 1)))) /\
  (N = 0%nat ->
     fst (front a) = Undefined /\ fst (back a) = Undefined /\
     size_t_sub N 1 = Z.to_nat (2 ^ 64 - 1)).
Proof.
  split.
  - intros HN Hmax.
    assert (size_t_sub N 1 = (N - 1)%nat) as Hsub.
    { unfold size_t_sub. rewrite Z.mod_small; lia. }
    unfold front, back, subscript. rewrite Hsub.
    rewrite !(proj2 (Nat.ltb_lt _ N)) by lia.
    split_and!; try done; apply lookup_lt_is_Some; rewrite elems_size; lia.
  - intros ->. unfold front, back, subscript.
    assert (size_t_sub 0 1 = Z.to_nat (2 ^ 64 - 1)) as Hsub.
    { unfold size_t_sub. f_equal. }
    split; [done|]. split; [|done]. cbn [fst].
    destruct (size_t_sub 0 1 <? 0)%nat eqn:Hlt; [|done].
    apply Nat.ltb_lt in Hlt. lia.
Qed.

(** [get<I>(a)] compiles exactly when [I < N], and then it returns a
    reference to element [I], which exists: it never goes outside [elems]
    and never throws. *)
Theorem array_get_checked (I : nat) a :
  ((I < N)%nat ->
     get_ I a = Some (Ok (Elem I), a) /\ is_Some (load a (Elem I))) /\
  ((N <= I)%nat -> get_ I a = None) /\
  (forall r, get_ I a = Some r ->
     fst r = Ok (Elem I) /\ snd r = a /\ is_Some (load a (Elem I))).
Proof.
  unfold get_, operator_index, subscript. split_and!.
  - intros HI. rewrite !(proj2 (Nat.ltb_lt I N)) by lia.
    split; [done|]. apply lookup_lt_is_Some. rewrite elems_size. lia.
  - intros HI. by rewrite (proj2 (Nat.ltb_ge I N)) by lia.
  - intros r. destruct (I <? N)%nat eqn:HI; [|done].
    intros ?; simplify_eq. simpl. split_and!; try done.
    apply Nat.ltb_lt in HI. apply lookup_lt_is_Some. rewrite elems_size. lia.
Qed.

(** *** [operator==] and [operator!=] *)

Section Equal.
Context (T_eq : T -> T -> bool).

Lemma std_equal_lookup l1 l2 :
  length l1 = length l2 ->
  std_equal T_eq l1 l2 = true <->
  forall i x y, l1 !! i = Some x -> l2 !! i = Some y -> T_eq x y = true.
Proof.
  revert l2. induction l1 as [|x l1 IH]; intros [|y l2] Hlen; simplify_eq/=.
  - split; [|done]. by intros _ i ? ? ?.
  - destruct (T_eq x y) eqn:Hxy.
    + rewrite IH by done. split.
      * intros H [|i] x' y' ? ?; simplify_eq/=; eauto.
      * intros H i x' y' ? ?. by apply (H (S i)).
    + split; [done|]. intros H. rewrite <- Hxy. by apply (H 0%nat).
Qed.

Lemma std_equal_mismatch l1 l2 :
  length l1 = length l2 -> std_equal T_eq l1 l2 = false ->
  exists i x y, l1 !! i = Some x /\ l2 !! i = Some y /\ T_eq x y = false.
Proof.
  revert l2. induction l1 as [|x l1 IH]; intros [|y l2] Hlen; simplify_eq/=;
    [done|].
  destruct (T_eq x y) eqn:Hxy.
  - intros H. destruct (IH l2 Hlen H) as (i & x' & y' & ? & ? & ?).
    by exists (S i), x', y'.
  - intros _. by exists 0%nat, x, y.
Qed.

(** [a == b] holds exactly when every element of [a] compares equal, by
    [T]'s [operator==], to the element of [b] at the same index; when that
    operator decides equality, exactly when the arrays hold the same
    elements.  [a != b] holds exactly when some pair of elements at the same
    index does not compare equal. *)
Theorem array_op_eq_elementwise a b :
  (op_eq T_eq a b = true <->
   forall i x y,
     elems a !! i = Some x -> elems b !! i = Some y -> T_eq x y = true) /\
  (op_ne T_eq a b = true <->
   exists i x y,
     elems a !! i = Some x /\ elems b !! i = Some y /\ T_eq x y = false) /\
  ((forall x y, T_eq x y = true <-> x = y) ->
   (op_eq T_eq a b = true <-> elems a = elems b)).
Proof.
  assert (length (elems a) = length (elems b)) as Hlen
    by by rewrite !elems_size.
  assert (op_eq T_eq a b = true <->
          forall i x y, elems a !! i = Some x -> elems b !! i = Some y ->
                        T_eq x y = true) as Heq
    by by apply std_equal_lookup.
  split_and!; [done| |].
  - unfold op_ne. rewrite negb_true_iff. split.
    + by apply std_equal_mismatch.
    + intros (i & x & y & Hx & Hy & Hxy). apply not_true_iff_false.
      rewrite Heq. intros H. rewrite (H i x y Hx Hy) in Hxy. done.
  - intros Href. rewrite Heq. split.
    + intros H. apply list_eq. intros i.
      destruct (elems a !! i) as [x|] eqn:Hx.
      * destruct (elems b !! i) as [y|] eqn:Hy.
        -- f_equal. apply Href. eauto.
        -- apply lookup_lt_Some in Hx. apply lookup_ge_None in Hy. lia.
      * apply lookup_ge_None in Hx. symmetry. apply lookup_ge_None. lia.
    + intros H i x y Hx Hy. rewrite H in Hx. simplify_eq. by apply Href.
Qed.

End Equal.

(** *** [operator<] and the operators written over it *)

Section Less.
Context (T_lt : T -> T -> bool).

Lemma lexicographical_compare_irrefl l :
  (forall x, T_lt x x = false) -> lexicographical_compare T_lt l l = false.
Proof.
  intros Hirr. induction l as [|x l IH]; simpl; [done|]. by rewrite Hirr.
Qed.

Lemma lexicographical_compare_asym l1 l2 :
  (forall x y, T_lt x y = true -> T_lt y x = false) ->
  lexicographical_compare T_lt l1 l2 = true ->
  lexicographical_compare T_lt l2 l1 = false.
Proof.
  intros Hasym. revert l2.
  induction l1 as [|x l1 IH]; intros [|y l2]; simpl; try done.
  destruct (T_lt x y) eqn:Hxy.
  - intros _. by rewrite (Hasym _ _ Hxy).
  - destruct (T_lt y x) eqn:Hyx; [done|]. apply IH.
Qed.

Lemma lexicographical_compare_trans l1 l2 l3 :
  (forall x y z, T_lt x y = true -> T_lt y z = true -> T_lt x z = true) ->
  (forall x y z,
     T_lt x y = false -> T_lt y x = false ->
     T_lt y z = false -> T_lt z y = false ->
     T_lt x z = false /\ T_lt z x = false) ->
  lexicographical_compare T_lt l1 l2 = true ->
  lexicographical_compare T_lt l2 l3 = true ->
  lexicographical_compare T_lt l1 l3 = true.
Proof.
  intros Htrans Hinc. revert l2 l3.
  induction l1 as [|x l1 IH]; intros [|y l2] [|z l3]; simpl; try done.
  destruct (T_lt x y) eqn:Hxy, (T_lt y z) eqn:Hyz.
  - intros _ _. by rewrite (Htrans _ _ _ Hxy Hyz).
  - destruct (T_lt z y) eqn:Hzy; [done|]. intros _ H23.
    destruct (T_lt x z) eqn:Hxz; [done|].
    destruct (T_lt z x) eqn:Hzx.
    + by rewrite (Htrans _ _ _ Hzx Hxy) in Hzy.
    + destruct (Hinc x z y Hxz Hzx Hzy Hyz) as [Hxy' _]. congruence.
  - destruct (T_lt y x) eqn:Hyx; [done|]. intros H12 _.
    destruct (T_lt x z) eqn:Hxz; [done|].
    destruct (T_lt z x) eqn:Hzx.
    + by rewrite (Htrans _ _ _ Hyz Hzx) in Hyx.
    + destruct (Hinc y x z Hyx Hxy Hxz Hzx) as [Hyz' _]. congruence.
  - destruct (T_lt y x) eqn:Hyx; [done|].
    destruct (T_lt z y) eqn:Hzy; [done|]. intros H12 H23.
    destruct (Hinc x y z Hxy Hyx Hyz Hzy) as [-> ->]. by eapply IH.
Qed.

(** When [T]'s [operator<] is a strict weak ordering (irreflexive,
    transitive, with a transitive incomparability), so is [operator<] on
    arrays: no array is less than itself, [a < b] excludes [b < a], and
    [a < b] and [b < c] give [a < c]. *)
Theorem array_op_lt_strict_order a b c :
  (forall x, T_lt x x = false) ->
  (forall x y z, T_lt x y = true -> T_lt y z = true -> T_lt x z = true) ->
  (forall x y z,
     T_lt x y = false -> T_lt y x = false ->
     T_lt y z = false -> T_lt z y = false ->
     T_lt x z = false /\ T_lt z x = false) ->
  op_lt T_lt a a = false /\
  (op_lt T_lt a b = true -> op_lt T_lt b a = false) /\
  (op_lt T_lt a b = true -> op_lt T_lt b c = true -> op_lt T_lt a c = true).
Proof.
  intros Hirr Htrans Hinc. unfold op_lt. split_and!.
  - by apply lexicographical_compare_irrefl.
  - apply lexicographical_compare_asym. intros x y Hxy.
    destruct (T_lt y x) eqn:Hyx; [|done].
    by rewrite <- (Htrans _ _ _ Hxy Hyx), Hirr.
  - by apply lexicographical_compare_trans.
Qed.

Lemma std_equal_neither_less (T_eq : T -> T -> bool) l1 l2 :
  (forall x y, T_eq x y = negb (T_lt x y) && negb (T_lt y x)) ->
  length l1 = length l2 ->
  std_equal T_eq l1 l2 =
  negb (lexicographical_compare T_lt l2 l1)
  && negb (lexicographical_compare T_lt l1 l2).
Proof.
  intros Heq. revert l2.
  induction l1 as [|x l1 IH]; intros [|y l2] Hlen; simplify_eq/=; [done|].
  rewrite Heq.
  destruct (T_lt x y), (T_lt y x); simpl; try done. by apply IH.
Qed.

(** The other operators agree with [operator<]: [a > b] is [b < a]; when
    [T]'s [operator<] is asymmetric, [a < b] gives [a <= b], and of [a <= b]
    and [b <= a] one holds at least; and when [T]'s [operator==] holds of
    the elements neither of which is less than the other, [a == b] is
    [a <= b && a >= b]. *)
Theorem array_relational_operators (T_eq : T -> T -> bool) a b :
  (forall x y, T_lt x y = true -> T_lt y x = false) ->
  (forall x y, T_eq x y = negb (T_lt x y) && negb (T_lt y x)) ->
  op_gt T_lt a b = op_lt T_lt b a /\
  op_ge T_lt a b = op_le T_lt b a /\
  (op_lt T_lt a b = true -> op_le T_lt a b = true) /\
  op_le T_lt a b || op_le T_lt b a = true /\
  op_eq T_eq a b = op_le T_lt a b && op_ge T_lt a b.
Proof.
  intros Hasym Heq. unfold op_gt, op_ge, op_le, op_lt, op_eq.
  split_and!; try done.
  - intros H. by rewrite (lexicographical_compare_asym _ _ Hasym H).
  - destruct (lexicographical_compare T_lt (elems b) (elems a)) eqn:H;
      [|done].
    by rewrite (lexicographical_compare_asym _ _ Hasym H).
  - apply std_equal_neither_less; [done|]. by rewrite !elems_size.
Qed.

End Less.

End ArrayOperations.

(** Two arrays of two [int]s, in lexicographic order. *)
Lemma array_lt_example :
  let a := {| Array.elems := [1; 2]; Array.elems_size := eq_refl |} in
  let b := {| Array.elems := [1; 3]; Array.elems_size := eq_refl |} in
  let c := {| Array.elems := [2; 0]; Array.elems_size := eq_refl |} in
  Array.op_lt Z.ltb a a = false /\
  (Array.op_lt Z.ltb a b = true -> Array.op_lt Z.ltb b a = false) /\
  (Array.op_lt Z.ltb a b = true -> Array.op_lt Z.ltb b c = true ->
   Array.op_lt Z.ltb a c = true).
Proof.
  intros a b c.
  apply (array_op_lt_strict_order (T := Z) (N := 2) Z.ltb a b c).
  - intros x. apply Z.ltb_irrefl.
  - intros x y z Hxy Hyz. apply Z.ltb_lt in Hxy, Hyz. apply Z.ltb_lt. lia.
  - intros x y z H1 H2 H3 H4. apply Z.ltb_ge in H1, H2, H3, H4.
    split; apply Z.ltb_ge; lia.
Defined.

(** The same arrays under the other operators. *)
Lemma array_relational_example :
  let a := {| Array.elems := [1; 2]; Array.elems_size := eq_refl |} in
  let b := {| Array.elems := [1; 3]; Array.elems_size := eq_refl |} in
  Array.op_gt Z.ltb a b = Array.op_lt Z.ltb b a /\
  Array.op_ge Z.ltb a b = Array.op_le Z.ltb b a /\
  (Array.op_lt Z.ltb a b = true -> Array.op_le Z.ltb a b = true) /\
  Array.op_le Z.ltb a b || Array.op_le Z.ltb b a = true /\
  Array.op_eq Z.eqb a b = Array.op_le Z.ltb a b && Array.op_ge Z.ltb a b.
Proof.
  intros a b.
  apply (array_relational_operators (T := Z) (N := 2) Z.ltb Z.eqb a b).
  - intros x y Hxy. apply Z.ltb_lt in Hxy. apply Z.ltb_ge. lia.
  - intros x y.
    destruct (Z.eqb_spec x y), (Z.ltb_spec x y), (Z.ltb_spec y x);
      simpl; try reflexivity; lia.
Defined.

(** ** scoped_ptr<T>: ownership *)

Section ScopedPtrFacts.
Import ScopedPtr.
Implicit Types (p : nat) (m : free_store) (s this : scoped_ptr).

Lemma delete_null m : delete 0 m = Some m.
Proof. done. Qed.

Lemma delete_live p m :
  p <> 0%nat -> p ∈ m -> delete p m = Some (m ∖ {[p]}).
Proof.
  intros Hp Hm. unfold delete. rewrite decide_False by done.
  by rewrite decide_True.
Qed.

Lemma delete_dead p m : p <> 0%nat -> p ∉ m -> delete p m = None.
Proof.
  intros Hp Hm. unfold delete. rewrite decide_False by done.
  by rewrite decide_False.
Qed.

(** [reset(p)] on a [scoped_ptr] that is null or owns a live object, with
    [p] another pointer: the object owned so far is deleted, and nothing
    else; the [scoped_ptr] holds [p] afterwards, and [operator bool] tells
    whether [p] is null. *)
Theorem scoped_ptr_reset p this m :
  px this = 0%nat \/ (px this ∈ m /\ p <> px this) ->
  exists this' m',
    reset p this m = Some (this', m') /\
    get this' = p /\
    operator_bool this' = negb (operator_not this') /\
    (operator_bool this' = true <-> p <> 0%nat) /\
    m' = (if decide (px this = 0%nat) then m else m ∖ {[px this]}) /\
    (forall q, q ∈ m -> q <> px this -> q ∈ m').
Proof.
  intros Hown. unfold reset, swap, construct, destroy. simpl.
  assert (operator_bool {| px := p |} = true <-> p <> 0%nat) as Hbool.
  { unfold operator_bool. simpl. rewrite negb_true_iff. apply Nat.eqb_neq. }
  destruct (decide (px this = 0%nat)) as [H0|H0].
  - rewrite H0, delete_null. do 2 eexists. split_and!; try done.
  - destruct Hown as [?|[Hlive Hne]]; [done|].
    rewrite delete_live by done. do 2 eexists. split_and!; try done.
    intros q Hq Hqne. set_solver.
Qed.

(** A [scoped_ptr] constructed over [p1], reset to [p2] and destroyed: both
    objects have been deleted, each once, and no other. *)
Theorem scoped_ptr_lifecycle p1 p2 m :
  p1 <> 0%nat -> p2 <> 0%nat -> p1 <> p2 -> p1 ∈ m -> p2 ∈ m ->
  exists s m1,
    reset p2 (construct p1) m = Some (s, m1) /\
    m1 = m ∖ {[p1]} /\
    destroy s m1 = Some (m ∖ {[p1]} ∖ {[p2]}) /\
    delete p1 (m ∖ {[p1]} ∖ {[p2]}) = None /\
    delete p2 (m ∖ {[p1]} ∖ {[p2]}) = None.
Proof.
  intros H1 H2 Hne Hm1 Hm2. unfold reset, swap, construct, destroy. simpl.
  rewrite delete_live by done. do 2 eexists. split_and!; try done.
  - apply delete_live; [done|]. set_solver.
  - apply delete_dead; [done|]. set_solver.
  - apply delete_dead; [done|]. set_solver.
Qed.

(** [reset(get())] on a [scoped_ptr] that owns a live object deletes that
    object and keeps its address: the [scoped_ptr] dangles, dereferencing
    it is undefined, and so is its destruction (a second [delete]). *)
Theorem scoped_ptr_self_reset this m :
  px this <> 0%nat -> px this ∈ m ->
  exists this' m',
    reset (get this) this m = Some (this', m') /\
    get this' = get this /\
    operator_bool this' = true /\
    (px this ∉ m') /\
    operator_star this' m' = None /\
    destroy this' m' = None.
Proof.
  intros H0 Hm. unfold reset, swap, construct, destroy, get. simpl.
  rewrite delete_live by done. do 2 eexists. split_and!; try done.
  - unfold operator_bool. simpl. rewrite negb_true_iff.
    by apply Nat.eqb_neq.
  - set_solver.
  - unfold operator_star. simpl. rewrite decide_False; [done|]. set_solver.
  - apply delete_dead; [done|]. set_solver.
Qed.

Lemma delete_comm p q m :
  delete p m ≫= delete q = delete q m ≫= delete p.
Proof.
  unfold delete.
  repeat (case_decide; simpl; simplify_eq);
    try done; try (f_equal; set_solver); set_solver.
Qed.

(** [swap] exchanges the two pointers and touches no object; swapping
    twice gives the two [scoped_ptr]s back; and destroying both after a
    swap leaves the free store as destroying both before it would. *)
Theorem scoped_ptr_swap this b m :
  let '(this', b') := swap this b in
  get this' = get b /\ get b' = get this /\
  swap this' b' = (this, b) /\
  destroy this' m ≫= destroy b' = destroy this m ≫= destroy b.
Proof.
  destruct this as [p], b as [q]. unfold swap, get, destroy. simpl.
  split_and!; try done. apply delete_comm.
Qed.

End ScopedPtrFacts.

(** A [scoped_ptr] over the object at address [1], reset to the one at
    [2]. *)
Lemma scoped_ptr_reset_example :
  exists this' m',
    ScopedPtr.reset 2 (ScopedPtr.construct 1) {[1%nat; 2%nat]}
      = Some (this', m') /\
    ScopedPtr.get this' = 2%nat /\
    (2%nat ∈ m').
Proof.
  destruct (scoped_ptr_reset 2 (ScopedPtr.construct 1) {[1%nat; 2%nat]})
    as (this' & m' & Hr & Hg & _ & _ & _ & Hkeep).
  { right. split; [set_solver | done]. }
  exists this', m'. split; [exact Hr|]. split; [exact Hg|].
  apply Hkeep; [set_solver | done].
Defined.

(** The two objects at [1] and [2] in a store that also holds one at
    [3]. *)
Lemma scoped_ptr_lifecycle_example :
  exists s m1,
    ScopedPtr.reset 2 (ScopedPtr.construct 1) {[1%nat; 2%nat; 3%nat]}
      = Some (s, m1) /\
    ScopedPtr.destroy s m1
      = Some (({[1%nat; 2%nat; 3%nat]} : gset nat) ∖ {[1%nat]} ∖ {[2%nat]}).
Proof.
  destruct (scoped_ptr_lifecycle 1 2 {[1%nat; 2%nat; 3%nat]}
              ltac:(lia) ltac:(lia) ltac:(lia)
              ltac:(set_solver) ltac:(set_solver))
    as (s & m1 & Hr & _ & Hd & _).
  exists s, m1. split; [exact Hr | exact Hd].
Defined.

(** Self-reset of a [scoped_ptr] over the object at address [1]. *)
Lemma scoped_ptr_self_reset_example :
  exists this' m',
    ScopedPtr.reset 1 (ScopedPtr.construct 1) {[1%nat]} = Some (this', m') /\
    ScopedPtr.destroy this' m' = None.
Proof.
  destruct (scoped_ptr_self_reset (ScopedPtr.construct 1) {[1%nat]}
              ltac:(simpl; lia) ltac:(set_solver))
    as (this' & m' & Hr & _ & _ & _ & _ & Hd).
  exists this', m'. split; [exact Hr | exact Hd].
Defined.
